(** * HIV recombinant sequence plotter (HIV_v2.js): model and properties

    A shallow embedding of the script's core: the colour registry
    ([getColor]), the input parser ([parseInput]), the breakpoint calculator
    ([calculateBreakpoints]), the coordinate scale ([createXScale]) and the
    drawing routine ([drawToContext]), then the main program and the
    command line around it ([main], [parseArgs], [script]), followed by the
    properties of each.

    Conventions of the model.
    - Text read from the input file is a JavaScript string, a sequence of
      UTF-16 code units: [list N].  String constants of the script that are
      never taken apart (colours, fonts, gene names) are Rocq strings.
    - Genomic positions are the integers returned by [parseInt]; they are
      kept in [Z], which is exact for magnitudes below 2^53 (beyond that a
      JavaScript number rounds), and [-0] is identified with [0].
    - Pixel coordinates are computed in [Q]: the arithmetic of the scale is
      taken exactly, the rounding of IEEE doubles is not modelled.
    - The 2D context is written to and never read back; a context records
      the calls issued on it.  The console is a list of events.
    - The one exception the core can raise is the TypeError of a call to a
      shadowed [hasOwnProperty]; computations return a completion. *)

From Stdlib Require Import PrimFloat FloatOps.
From Stdlib Require SpecFloat.
From Stdlib Require Import ZArith NArith QArith Lqa String Ascii List Bool Lia ZifyBool.
From Stdlib Require Import Sorting.Sorted Sorting.Permutation DecimalString.
From Stdlib Require DecimalPos.
From stdpp Require Import gmap list.
Import ListNotations.

Local Open Scope bool_scope.

(** ** JavaScript strings *)

Abbreviation jsstring := (list N).

(** A script literal as a sequence of code units (ASCII only). *)
Definition u16 (s : string) : jsstring :=
  List.map N_of_ascii (list_ascii_of_string s).

(** WhiteSpace and LineTerminator code units: what [String.prototype.trim],
    the regular-expression class [\s] and [parseInt] all skip. *)
Definition isWhiteSpace (c : N) : bool :=
  ((9 <=? c) && (c <=? 13) || (c =? 32) || (c =? 160) || (c =? 5760)
   || (8192 <=? c) && (c <=? 8202) || (c =? 8232) || (c =? 8233)
   || (c =? 8239) || (c =? 8287) || (c =? 12288) || (c =? 65279))%N.

Fixpoint trimStart (s : jsstring) : jsstring :=
  match s with
  | [] => []
  | c :: r => if isWhiteSpace c then trimStart r else s
  end.

Definition trimEnd (s : jsstring) : jsstring := rev (trimStart (rev s)).

(** [s.trim()] *)
Definition trim (s : jsstring) : jsstring := trimEnd (trimStart s).

(** [s.startsWith(c)] for a one-character pattern. *)
Definition startsWith (s : jsstring) (c : N) : bool :=
  match s with
  | [] => false
  | d :: _ => (d =? c)%N
  end.

Definition isEmpty (s : jsstring) : bool :=
  match s with [] => true | _ => false end.

(** [text.split(newline)]: never empty, the empty text has one empty line. *)
Fixpoint splitLines (s : jsstring) : list jsstring :=
  match s with
  | [] => [[]]
  | c :: r =>
      if (c =? 10)%N then [] :: splitLines r
      else match splitLines r with
           | l :: ls => (c :: l) :: ls
           | [] => [[c]]
           end
  end.

(** [line.split(/[\s\t]+/)]: the separators are the maximal runs of white
    space; a leading or trailing run leaves an empty first or last field.
    [inSep] tells that the previous code unit belonged to a separator. *)
Fixpoint splitFrom (inSep : bool) (s : jsstring) : list jsstring :=
  match s with
  | [] => [[]]
  | c :: r =>
      if isWhiteSpace c then
        if inSep then splitFrom true r else [] :: splitFrom true r
      else match splitFrom false r with
           | l :: ls => (c :: l) :: ls
           | [] => [[c]]
           end
  end.

Definition splitWhitespace (s : jsstring) : list jsstring := splitFrom false s.

(** [parts.join(' ')] *)
Fixpoint join (parts : list jsstring) : jsstring :=
  match parts with
  | [] => []
  | [p] => p
  | p :: ps => p ++ 32%N :: join ps
  end.

(** [parts.slice(n)] *)
Definition slice (n : nat) (parts : list jsstring) : list jsstring :=
  skipn n parts.

(** ** parseInt(s, 10) *)

Definition isDigit (c : N) : bool := ((48 <=? c) && (c <=? 57))%N.

Fixpoint digitPrefix (s : jsstring) : jsstring :=
  match s with
  | [] => []
  | c :: r => if isDigit c then c :: digitPrefix r else []
  end.

Definition digitsValue (ds : jsstring) : Z :=
  fold_left (fun acc c => 10 * acc + Z.of_N (c - 48))%Z ds 0%Z.

(** Leading white space is skipped, one sign is read, then the longest run
    of decimal digits; whatever follows is ignored.  [None] is [NaN]. *)
Definition parseInt (s : jsstring) : option Z :=
  let s := trimStart s in
  let '(sign, s) :=
    match s with
    | c :: r => if (c =? 45)%N then ((-1)%Z, r)
                else if (c =? 43)%N then (1%Z, r) else (1%Z, s)
    | [] => (1%Z, s)
    end in
  match digitPrefix s with
  | [] => None
  | z => Some (sign * digitsValue z)%Z
  end.

(** [n.toString()] for an integer. *)
Definition toString (n : Z) : jsstring :=
  u16 (NilZero.string_of_int (Z.to_int n)).

(** ** Global state, console and completions *)

Inductive ConsoleEvent : Type :=
| LogHeader (line : jsstring)                     (* console.log, line 144 *)
| WarnInvalidLine (lineNo : nat) (line : jsstring) (* console.warn, line 156 *)
| WarnNoHeader                                    (* console.warn, line 180 *)
| ErrorNoData                                     (* console.error, line 322 *)
| LogParsed (count : nat)                         (* console.log, line 325 *)
| LogSaved (format : string)                      (* console.log, lines 339, 352 *)
| ErrorUncaught.                                  (* console.error, line 356 *)

(** The module-level variables [assignedColors] and [fallbackColorIndex],
    and what has been printed so far.  [assignedColors] is a plain object:
    the map holds its own properties. *)
Record Globals : Type := mkGlobals {
  assignedColors : gmap jsstring string;
  fallbackColorIndex : nat;
  console : list ConsoleEvent
}.

(** The state of a freshly started process. *)
Definition initialGlobals : Globals := mkGlobals ∅ 0 [].

Inductive Completion (A : Type) : Type :=
| Normal (a : A)
| TypeError.
Arguments Normal {A} a.
Arguments TypeError {A}.

Definition Prog (A : Type) : Type := Globals -> Completion A * Globals.

Definition ret {A} (a : A) : Prog A := fun g => (Normal a, g).

Definition bind {A B} (m : Prog A) (k : A -> Prog B) : Prog B :=
  fun g => match m g with
           | (Normal a, g') => k a g'
           | (TypeError, g') => (TypeError, g')
           end.

Definition emitConsole (e : ConsoleEvent) : Prog unit :=
  fun g => (Normal tt,
            mkGlobals (assignedColors g) (fallbackColorIndex g) (console g ++ [e])).

Declare Scope prog_scope.
Delimit Scope prog_scope with prog.
Notation "'do' x <- m ; k" := (bind m (fun x => k))
  (at level 10, x name, m at level 100, k at level 200) : prog_scope.
Notation "'do' ' p <- m ; k" := (bind m (fun x => let 'p := x in k))
  (at level 10, p pattern, m at level 100, k at level 200) : prog_scope.
Notation "m ;; k" := (bind m (fun _ => k))
  (at level 100, k at level 200, right associativity) : prog_scope.

(** ** Colour configuration (lines 64-89) *)

Definition DEFAULT_COLORS : gmap jsstring string :=
  list_to_map
    [ (u16 "A", "#FF0000"); (u16 "A1", "#FF5700"); (u16 "A2", "#FF7E5E");
      (u16 "B", "#3F98F2"); (u16 "C", "#9D6039"); (u16 "D", "#E3A1C9");
      (u16 "E", "#FFFF64"); (u16 "F", "#BEE120"); (u16 "F1", "#C5CAFF");
      (u16 "F2", "#97D7FF"); (u16 "G", "#4FAE57"); (u16 "H", "#FFD700");
      (u16 "J", "#20D7CF"); (u16 "J1", "#FFB600"); (u16 "J2", "#FFD700");
      (u16 "K", "#7C45D9"); (u16 "01", "#7C45D9"); (u16 "02", "#D7B320");
      (u16 "?", "#DCDCDC"); (u16 "U", "#DCDCDC") ]%string.

Definition FALLBACK_COLORS : list string :=
  [ "#FF6347"; "#20B2AA"; "#DDA0DD"; "#F0E68C"; "#BC8F8F";
    "#4682B4"; "#D2691E"; "#6B8E23"; "#CD5C5C"; "#708090" ]%string.

(** [obj.hasOwnProperty(key)] on a plain object whose own properties are
    [obj] and whose values are strings.  The method is inherited from
    [Object.prototype]; an own property of that name shadows it, and calling
    a string raises a TypeError. *)
Definition hasOwnProperty (obj : gmap jsstring string) (key : jsstring)
  : Completion bool :=
  match obj !! u16 "hasOwnProperty" with
  | Some _ => TypeError
  | None => Normal (bool_decide (is_Some (obj !! key)))
  end.

(** [obj[key] = value] on such an object.  [__proto__] is an accessor of
    [Object.prototype]: its setter ignores a string and no own property is
    created.  Every other key becomes (or updates) an own property. *)
Definition setProperty (key : jsstring) (value : string)
  (obj : gmap jsstring string) : gmap jsstring string :=
  if decide (key = u16 "__proto__") then obj else <[key := value]> obj.

(** [FALLBACK_COLORS[i]]; the index used by [getColor] is always in range. *)
Definition fallbackAt (i : nat) : string := nth i FALLBACK_COLORS EmptyString.

(** [DEFAULT_COLORS] is never written to and has no own property named
    [hasOwnProperty], so the test of line 83 and the read that follows are
    one lookup.  The test of line 84 goes through the method call. *)
Definition getColor (subtype : jsstring) : Prog string := fun g =>
  match DEFAULT_COLORS !! subtype with
  | Some c => (Normal c, g)
  | None =>
      match hasOwnProperty (assignedColors g) subtype with
      | TypeError => (TypeError, g)
      | Normal true =>
          (Normal (default EmptyString (assignedColors g !! subtype)), g)
      | Normal false =>
          let color :=
            fallbackAt (fallbackColorIndex g mod length FALLBACK_COLORS) in
          (Normal color,
           mkGlobals (setProperty subtype color (assignedColors g))
                     (S (fallbackColorIndex g)) (console g))
      end
  end.

(** ** Input parsing (lines 125-184) *)

Record Region : Type := mkRegion {
  start : Z;
  end_ : Z;
  subtype : jsstring;
  color : string
}.

(** The body of the [for] loop for line [i] (0-based); [headerFound] and
    [regions] are the loop's variables. *)
Definition parseLine (i : nat) (raw : jsstring)
  (headerFound : bool) (regions : list Region) : Prog (bool * list Region) :=
  (let line := trim raw in
   if isEmpty line then ret (headerFound, regions)
   else if startsWith line 35 then ret (headerFound, regions)
   else if startsWith line 62 then
     emitConsole (LogHeader line) ;; ret (true, regions)
   else if negb headerFound then ret (headerFound, regions)
   else
     let parts := splitWhitespace line in
     if (length parts <? 3)%nat then
       emitConsole (WarnInvalidLine (i + 1) line) ;; ret (headerFound, regions)
     else
       match parseInt (nth 0 parts []), parseInt (nth 1 parts []) with
       | Some start, Some end_ =>
           let subtype := join (slice 2 parts) in
           if isEmpty subtype then ret (headerFound, regions)
           else
             let '(finalStart, finalEnd) :=
               if (start >? end_)%Z then (end_, start) else (start, end_) in
             do color <- getColor subtype ;
             ret (headerFound,
                  regions ++ [mkRegion finalStart finalEnd subtype color])
       | _, _ => ret (headerFound, regions)
       end)%prog.

Fixpoint parseLoop (lines : list jsstring) (i : nat)
  (headerFound : bool) (regions : list Region) : Prog (bool * list Region) :=
  match lines with
  | [] => ret (headerFound, regions)
  | raw :: rest =>
      (do '(h, rs) <- parseLine i raw headerFound regions ;
       parseLoop rest (S i) h rs)%prog
  end.

Definition parseInput (text : jsstring) : Prog (list Region) :=
  (if isEmpty (trim text) then ret []
   else
     do '(headerFound, regions) <- parseLoop (splitLines text) 0 false [] ;
     (if negb headerFound then emitConsole WarnNoHeader else ret tt) ;;
     ret regions)%prog.

(** ** Gene map and render configuration (lines 94-120) *)

Record Gene : Type := mkGene {
  name : string;
  geneStart : Z;
  geneEnd : Z;
  row : Z;
  bgColor : string;
  noOverlay : bool      (* set on one entry, read nowhere *)
}.

Definition GENE_MAP : list Gene :=
  [ (* Row 1 *)
    mkGene "5' LTR" 1 634 1 "#CCCCCC" false;
    mkGene "gag" 790 2292 1 "#CCCCCC" false;
    mkGene "vif" 5041 5619 1 "#CCCCCC" false;
    mkGene EmptyString 8379 8469 1 "#CCCCCC" false;
    mkGene "nef" 8797 9417 1 "#FFFFFF" false;
    (* Row 2 *)
    mkGene EmptyString 5831 6045 2 "#FFB6C1" true;
    mkGene "vpu" 6062 6310 2 "#CCCCCC" false;
    mkGene EmptyString 8379 8653 2 "#CCCCCC" false;
    mkGene "3' LTR" 9086 9719 2 "#FFFFFF" false;
    (* Row 3 *)
    mkGene "pol" 2085 5096 3 "#CCCCCC" false;
    mkGene "vpr" 5559 5850 3 "#CCCCCC" false;
    mkGene EmptyString 5970 6045 3 "#CCCCCC" false;
    mkGene "env" 6225 8795 3 "#CCCCCC" false ]%string%Z.

Record RenderConfig : Type := mkRenderConfig {
  width : Q;
  height : Q;
  marginTop : Q;
  marginRight : Q;
  marginBottom : Q;
  marginLeft : Q;
  geneRowHeight : Q;
  geneRowGap : Q;
  axisRange : Q * Q
}.

Definition RENDER_CONFIG : RenderConfig :=
  mkRenderConfig 900 300 60 50 80 50 25 10 (0, 9719)%Q.

(** ** Breakpoints (lines 186-198) *)

Record Breakpoint : Type := mkBreakpoint {
  position : Z;
  displayValue : Z;
  isFirst : bool;
  isLast : bool
}.

(** [[...regions].sort((a, b) => a.start - b.start)]: a copy of the array,
    sorted by [start]; [Array.prototype.sort] is stable.  The stable sort of
    a list is unique, insertion from the right computes it. *)
Fixpoint insertByStart (r : Region) (sorted : list Region) : list Region :=
  match sorted with
  | [] => [r]
  | x :: rest =>
      if (start x <? start r)%Z then x :: insertByStart r rest
      else r :: sorted
  end.

Definition sortByStart (regions : list Region) : list Region :=
  fold_right insertByStart [] regions.

(** The [for] loop over [sortedRegions], from index [i] on, where [n] is
    [sortedRegions.length]. *)
Fixpoint breakpointLoop (n i : nat) (sortedRegions : list Region)
  (breakpoints : list Breakpoint) : list Breakpoint :=
  match sortedRegions with
  | [] => breakpoints
  | region :: rest =>
      let breakpoints :=
        breakpoints
          ++ [mkBreakpoint (start region) (start region) (i =? 0)%nat false] in
      let breakpoints :=
        if (i =? n - 1)%nat then
          breakpoints ++ [mkBreakpoint (end_ region) (end_ region) false true]
        else breakpoints in
      breakpointLoop n (S i) rest breakpoints
  end.

Definition calculateBreakpoints (regions : list Region) : list Breakpoint :=
  if (length regions =? 0)%nat then []
  else
    let sortedRegions := sortByStart regions in
    breakpointLoop (length sortedRegions) 0 sortedRegions [].

(** ** Coordinate scale (lines 200-207) *)

Definition createXScale : Q -> Q :=
  let domain := axisRange RENDER_CONFIG in
  let range :=
    (marginLeft RENDER_CONFIG, width RENDER_CONFIG - marginRight RENDER_CONFIG)%Q in
  fun value =>
    (let ratio := (value - fst domain) / (snd domain - fst domain) in
     fst range + ratio * (snd range - fst range))%Q.

(** ** The drawing surface *)

(** What the script does to a 2D context: property assignments and method
    calls.  The angle of [rotate] is given as a multiple of pi. *)
Inductive CtxCall : Type :=
| SetFillStyle (c : string)
| SetStrokeStyle (c : string)
| SetLineWidth (w : Q)
| SetGlobalAlpha (a : Q)
| SetFont (f : string)
| SetTextAlign (a : string)
| SetTextBaseline (b : string)
| FillRect (x y w h : Q)
| StrokeRect (x y w h : Q)
| BeginPath
| MoveTo (x y : Q)
| LineTo (x y : Q)
| Stroke
| FillText (text : jsstring) (x y : Q)
| Save
| Restore
| Translate (x y : Q)
| RotatePi (turns : Q).

Inductive SurfaceKind : Type := ImageSurface | PdfSurface.

(** A context of [createCanvas(w, h, kind).getContext('2d')] with the calls
    issued on it so far. *)
Record Context2D : Type := mkContext {
  surface : SurfaceKind;
  canvasWidth : Q;
  canvasHeight : Q;
  calls : list CtxCall
}.

Definition createContext (w h : Q) (kind : SurfaceKind) : Context2D :=
  mkContext kind w h [].

Definition Draw : Type := Context2D -> Context2D.

Definition emit (c : CtxCall) : Draw :=
  fun ctx =>
    mkContext (surface ctx) (canvasWidth ctx) (canvasHeight ctx) (calls ctx ++ [c]).

Definition skip : Draw := fun ctx => ctx.

Definition andThen (f g : Draw) : Draw := fun ctx => g (f ctx).

Declare Scope draw_scope.
Delimit Scope draw_scope with draw.
Notation "f ;; g" := (andThen f g)
  (at level 100, g at level 200, right associativity) : draw_scope.

(** [xs.forEach(x => body)] and [xs.forEach((x, i) => body)] *)
Definition forEach {A} (xs : list A) (body : A -> Draw) : Draw :=
  fun ctx => fold_left (fun c x => body x c) xs ctx.

Fixpoint forEachFrom {A} (i : nat) (xs : list A) (body : A -> nat -> Draw)
  : Draw :=
  match xs with
  | [] => skip
  | x :: rest => andThen (body x i) (forEachFrom (S i) rest body)
  end.

Definition forEachIndexed {A} (xs : list A) (body : A -> nat -> Draw) : Draw :=
  forEachFrom 0 xs body.

(** ** Drawing (lines 212-311) *)

Section Drawing.
Local Open Scope Q_scope.
Local Open Scope draw_scope.

(** The two local helpers of [drawToContext]. *)
Definition xScale (value : Z) : Q := createXScale (inject_Z value).

Definition getRowY (row : Z) : Q :=
  marginTop RENDER_CONFIG + 20
  + (inject_Z row - 1) * (geneRowHeight RENDER_CONFIG + geneRowGap RENDER_CONFIG).

(** [size + 'px "Liberation Sans", Arial, sans-serif'] *)
Definition fontOf (size : string) : string :=
  (size ++ "px " ++ String "034" "Liberation Sans"
        ++ String "034" ", Arial, sans-serif")%string.

(** 1. gene blocks *)
Definition drawGene (gene : Gene) : Draw :=
  let x := xScale (geneStart gene) in
  let y := getRowY (row gene) in
  let w := xScale (geneEnd gene) - xScale (geneStart gene) in
  emit (SetFillStyle (bgColor gene)) ;;
  emit (FillRect x y w (geneRowHeight RENDER_CONFIG)) ;;
  if (name gene =? "nef")%string || (name gene =? "3' LTR")%string then
    emit (SetStrokeStyle "#000000") ;; emit (SetLineWidth 0.2) ;;
    emit (StrokeRect x y w (geneRowHeight RENDER_CONFIG))
  else skip.

(** 2. subtype overlays: the body of the inner [forEach] *)
Definition drawOverlay (region : Region) (gene : Gene) : Draw :=
  let overlapStart := Z.max (start region) (geneStart gene) in
  let overlapEnd := Z.min (end_ region) (geneEnd gene) in
  if (overlapStart <? overlapEnd)%Z then
    emit (SetGlobalAlpha 0.8) ;;
    emit (SetFillStyle (color region)) ;;
    emit (FillRect (xScale overlapStart) (getRowY (row gene))
                   (xScale overlapEnd - xScale overlapStart)
                   (geneRowHeight RENDER_CONFIG)) ;;
    emit (SetGlobalAlpha 1.0)
  else skip.

Definition drawOverlays (genes : list Gene) (regions : list Region) : Draw :=
  forEach regions (fun region =>
    forEach genes (fun gene => drawOverlay region gene)).

(** 3. gene names *)
Definition drawGeneName (gene : Gene) : Draw :=
  let x := xScale (geneStart gene)
           + (xScale (geneEnd gene) - xScale (geneStart gene)) / 2 in
  let y := getRowY (row gene) + geneRowHeight RENDER_CONFIG / 2 in
  emit (FillText (u16 (name gene)) x y).

Definition drawGeneNames : Draw :=
  emit (SetFont (fontOf "12")) ;;
  emit (SetFillStyle "#333333") ;;
  emit (SetTextAlign "center") ;;
  emit (SetTextBaseline "middle") ;;
  forEach (List.filter (fun d => negb (name d =? EmptyString)%string) GENE_MAP)
          drawGeneName.

(** 4. the tat and rev connectors *)
Definition drawConnectors : Draw :=
  emit (SetStrokeStyle "#666666") ;; emit (SetLineWidth 1) ;;
  let tatFromX := xScale 6045 in
  let tatToX := xScale 8379 in
  let tatFromY := getRowY 2 - 5 in
  let tatToY := getRowY 1 + geneRowHeight RENDER_CONFIG / 2 in
  emit BeginPath ;; emit (MoveTo tatFromX tatFromY) ;;
  emit (LineTo tatFromX tatToY) ;; emit (LineTo tatToX tatToY) ;;
  emit Stroke ;;
  emit (FillText (u16 "tat") ((tatFromX + tatToX) / 2) (tatToY - 5)) ;;
  let revFromX := xScale 6045 in
  let revToX := xScale 8379 in
  let revFromY := getRowY 3 in
  let revToY := getRowY 2 + geneRowHeight RENDER_CONFIG / 2 in
  let revMidY := revFromY - 5 in
  let revTurnX := xScale 7200 in
  emit BeginPath ;; emit (MoveTo revFromX revFromY) ;;
  emit (LineTo revFromX revMidY) ;; emit (LineTo revTurnX revMidY) ;;
  emit (LineTo revToX revToY) ;; emit Stroke ;;
  emit (FillText (u16 "rev") ((revFromX + revTurnX) / 2 + 30) (revMidY - 5)).

(** 5. breakpoint ticks *)
Definition drawBreakpoint (tickStartY tickEndY numberY : Q)
  (bp : Breakpoint) : Draw :=
  let x := xScale (position bp) in
  emit BeginPath ;; emit (MoveTo x tickStartY) ;;
  emit (LineTo x tickEndY) ;; emit Stroke ;;
  emit Save ;; emit (Translate (x + 4) numberY) ;;
  emit (RotatePi (- (1 / 2))) ;;
  emit (SetTextAlign "left") ;;
  emit (FillText (toString (displayValue bp)) 0 0) ;;
  emit Restore.

Definition drawBreakpoints (regions : list Region) : Draw :=
  let breakpoints := calculateBreakpoints regions in
  let tickStartY := marginTop RENDER_CONFIG + 20 - 11 in
  let tickEndY := tickStartY + 8 in
  let numberY := tickStartY - 3 in
  emit (SetStrokeStyle "#333333") ;;
  emit (SetFont (fontOf "11")) ;;
  forEach breakpoints (drawBreakpoint tickStartY tickEndY numberY).

(** 6. axis *)
Definition drawAxisTick (axisY : Q) (value : Z) : Draw :=
  let x := xScale value in
  emit BeginPath ;; emit (MoveTo x axisY) ;;
  emit (LineTo x (axisY + 5)) ;; emit Stroke ;;
  emit (SetFillStyle "#7f8c8d") ;;
  emit (SetFont (fontOf "10")) ;;
  emit (FillText (toString value) x (axisY + 15)).

Definition drawAxis : Draw :=
  let axisY := getRowY 3 + geneRowHeight RENDER_CONFIG + 10 in
  emit (SetStrokeStyle "#bdc3c7") ;; emit BeginPath ;;
  emit (MoveTo (marginLeft RENDER_CONFIG) axisY) ;;
  emit (LineTo (width RENDER_CONFIG - marginRight RENDER_CONFIG) axisY) ;;
  emit Stroke ;;
  forEach [0; 1000; 2000; 3000; 4000; 5000; 6000; 7000; 8000; 9000; 9719]%Z
          (drawAxisTick axisY).

(** 7. legend.  A [Map] keeps its entries in insertion order; [set] on a
    key already present replaces the value in place. *)
Definition mapHas (m : list (jsstring * string)) (key : jsstring) : bool :=
  existsb (fun e => bool_decide (fst e = key)) m.

Fixpoint mapSet (key : jsstring) (value : string)
  (m : list (jsstring * string)) : list (jsstring * string) :=
  match m with
  | [] => [(key, value)]
  | e :: rest =>
      if bool_decide (fst e = key) then (key, value) :: rest
      else e :: mapSet key value rest
  end.

Record LegendItem : Type := mkLegendItem {
  itemSubtype : jsstring;
  itemColor : string
}.

Definition legendData (regions : list Region) : list LegendItem :=
  let subtypeMap :=
    fold_left
      (fun m r =>
         if negb (mapHas m (subtype r)) then mapSet (subtype r) (color r) m
         else m)
      regions [] in
  List.map (fun e => mkLegendItem (fst e) (snd e)) subtypeMap.

Definition drawLegendItem (legendY : Q) (item : LegendItem) (i : nat) : Draw :=
  let x := marginLeft RENDER_CONFIG + inject_Z (Z.of_nat i) * 80 in
  emit (SetFillStyle (itemColor item)) ;;
  emit (FillRect x legendY 15 15) ;;
  emit (SetStrokeStyle "#999999") ;; emit (SetLineWidth 0.5) ;;
  emit (StrokeRect x legendY 15 15) ;;
  emit (SetFillStyle "#333333") ;;
  emit (SetFont (fontOf "11")) ;;
  emit (SetTextAlign "left") ;;
  emit (FillText (itemSubtype item) (x + 20) (legendY + 12)).

Definition drawLegend (regions : list Region) : Draw :=
  let legendY := height RENDER_CONFIG - 30 in
  forEachIndexed (legendData regions) (drawLegendItem legendY).

Definition drawToContext (ctx : Context2D) (width height : Q)
  (regions : list Region) : Context2D :=
  (emit (SetFillStyle "white") ;;
   emit (FillRect 0 0 width height) ;;
   forEach GENE_MAP drawGene ;;
   drawOverlays GENE_MAP regions ;;
   drawGeneNames ;;
   drawConnectors ;;
   drawBreakpoints regions ;;
   drawAxis ;;
   drawLegend regions) ctx.
End Drawing.

(** ** Main program (lines 316-358) *)

(** The output paths given on the command line ([null] is [None]). *)
Record Params : Type := mkParams {
  pdf : option string;
  png : option string
}.

(** What a run leaves behind: the exit status and, per file written, its
    path and the context that was drawn for it.  Failures of the file
    system are outside the model. *)
Record Outcome : Type := mkOutcome {
  exitCode : Z;
  written : list (string * Context2D)
}.

Definition main (params : Params) (inputText : jsstring) (g : Globals)
  : Outcome * Globals :=
  let say e (g : Globals) :=
    mkGlobals (assignedColors g) (fallbackColorIndex g) (console g ++ [e]) in
  match parseInput inputText g with
  | (TypeError, g') => (mkOutcome 1 [], say ErrorUncaught g')
  | (Normal regions, g') =>
      if (length regions =? 0)%nat then (mkOutcome 1 [], say ErrorNoData g')
      else
        let g1 := say (LogParsed (length regions)) g' in
        let '(files, g2) :=
          match png params with
          | Some path =>
              let ctxPng :=
                createContext (width RENDER_CONFIG) (height RENDER_CONFIG)
                              ImageSurface in
              ([(path, drawToContext ctxPng (width RENDER_CONFIG)
                                     (height RENDER_CONFIG) regions)],
               say (LogSaved "PNG") g1)
          | None => ([], g1)
          end in
        let '(files, g3) :=
          match pdf params with
          | Some path =>
              let ctxPdf :=
                createContext (width RENDER_CONFIG) (height RENDER_CONFIG)
                              PdfSurface in
              (files ++ [(path, drawToContext ctxPdf (width RENDER_CONFIG)
                                              (height RENDER_CONFIG) regions)],
               say (LogSaved "PDF") g2)
          | None => (files, g2)
          end in
        (mkOutcome 0 files, g3)
  end.

(** ** Command line and start of the script (lines 18-59, 316-319) *)

(** The [params] object with its three fields. *)
Record CliParams : Type := mkCliParams {
  input : option string;
  pdfArg : option string;
  pngArg : option string
}.

(** A string used as a condition: the empty string is falsy. *)
Definition truthy (s : string) : bool :=
  match s with EmptyString => false | _ => true end.

(** The loop over [args]: a flag followed by a truthy argument stores it
    and skips it ([args[++i]]); anything else is passed over.  A flag in
    last position has no [args[i + 1]]. *)
Fixpoint parseArgs (args : list string) (params : CliParams) : CliParams :=
  match args with
  | [] => params
  | arg :: rest =>
      match rest with
      | next :: rest' =>
          if (arg =? "-i")%string && truthy next then
            parseArgs rest' (mkCliParams (Some next) (pdfArg params) (pngArg params))
          else if (arg =? "-pdf")%string && truthy next then
            parseArgs rest' (mkCliParams (input params) (Some next) (pngArg params))
          else if (arg =? "-png")%string && truthy next then
            parseArgs rest' (mkCliParams (input params) (pdfArg params) (Some next))
          else parseArgs rest params
      | [] => params
      end
  end.






(** * Vocabulary of the statements *)

(** The regions of the input [>seq1 / 100 500 B / 500 1000 A1]. *)
Definition exampleRegions : list Region :=
  [ mkRegion 100 500 (u16 "B") "#3F98F2";
    mkRegion 500 1000 (u16 "A1") "#FF5700" ].

Definition byStart (a b : Region) : Prop := (start a <= start b)%Z.

(** What the breakpoint loop appends when it runs over the tail of the
    sorted array: every [start], and after the last one its [end]. *)
Definition startMark (i : nat) (region : Region) : Breakpoint :=
  mkBreakpoint (start region) (start region) (i =? 0)%nat false.

Definition endMark (region : Region) : Breakpoint :=
  mkBreakpoint (end_ region) (end_ region) false true.

Fixpoint marksFrom (i : nat) (rs : list Region) : list Breakpoint :=
  match rs with
  | [] => []
  | [r] => [startMark i r; endMark r]
  | r :: rest => startMark i r :: marksFrom (S i) rest
  end.

(** The calls of one overlay rectangle. *)
Definition overlayCalls (region : Region) (gene : Gene) : list CtxCall :=
  let overlapStart := Z.max (start region) (geneStart gene) in
  let overlapEnd := Z.min (end_ region) (geneEnd gene) in
  [ SetGlobalAlpha 0.8;
    SetFillStyle (color region);
    FillRect (xScale overlapStart) (getRowY (row gene))
             (xScale overlapEnd - xScale overlapStart)%Q
             (geneRowHeight RENDER_CONFIG);
    SetGlobalAlpha 1.0 ].

Definition isFillRect (c : CtxCall) : bool :=
  match c with FillRect _ _ _ _ => true | _ => false end.

(** The context [ctx] after the calls [ops] have been issued on it. *)
Definition issue (ops : list CtxCall) (ctx : Context2D) : Context2D :=
  mkContext (surface ctx) (canvasWidth ctx) (canvasHeight ctx) (calls ctx ++ ops).

(** A drawing step that only issues calls, the same ones on every context. *)
Definition WriteOnly (f : Draw) (ops : list CtxCall) : Prop :=
  forall ctx, f ctx = issue ops ctx.

(** The region and the gene overlap on more than a point. *)
Definition strictOverlap (region : Region) (gene : Gene) : bool :=
  (Z.max (start region) (geneStart gene) <? Z.min (end_ region) (geneEnd gene))%Z.

(** The calls of the overlay pass, pair by pair. *)
Definition overlayPassCalls (genes : list Gene) (regions : list Region)
  : list CtxCall :=
  flat_map (fun region =>
    flat_map (fun gene =>
      if strictOverlap region gene then overlayCalls region gene else [])
      genes) regions.



(** An input file given line by line. *)
Fixpoint fileOf (lines : list string) : jsstring :=
  match lines with
  | [] => []
  | [l] => u16 l
  | l :: rest => u16 l ++ 10%N :: fileOf rest
  end.

(** The globals [g] after [events] have been printed. *)
Definition withConsole (g : Globals) (events : list ConsoleEvent) : Globals :=
  mkGlobals (assignedColors g) (fallbackColorIndex g) (console g ++ events).

(** The two numeric fields of a source line and its label. *)
Definition fieldsOf (raw : jsstring) : list jsstring :=
  splitWhitespace (trim raw).

(** Region [r] is what the data line [raw] describes. *)
Definition fromLine (raw : jsstring) (r : Region) : Prop :=
  exists rawA rawB : Z,
    parseInt (nth 0 (fieldsOf raw) []) = Some rawA
    /\ parseInt (nth 1 (fieldsOf raw) []) = Some rawB
    /\ start r = Z.min rawA rawB
    /\ end_ r = Z.max rawA rawB
    /\ subtype r = join (slice 2 (fieldsOf raw)).

(** A line that is a header line for the parser. *)
Definition isHeaderLine (raw : jsstring) : bool := startsWith (trim raw) 62.

(** Two states of the globals with the same colour registry. *)
Definition sameRegistry (g1 g2 : Globals) : Prop :=
  assignedColors g1 = assignedColors g2
  /\ fallbackColorIndex g1 = fallbackColorIndex g2.



(** A drawing step that only issues calls. *)
Definition Issues (f : Draw) : Prop := exists ops, WriteOnly f ops.

(** A label without a predefined colour. *)
Definition novel (s : jsstring) : Prop := DEFAULT_COLORS !! s = None.

(** A label that is not the name of a member of [Object.prototype] that
    the registry object relies on. *)
Definition ordinaryLabel (s : jsstring) : Prop :=
  s <> u16 "__proto__" /\ s <> u16 "hasOwnProperty".

(** [getColor] called on each label in turn. *)
Fixpoint getColors (labels : list jsstring) (g : Globals)
  : list (Completion string) * Globals :=
  match labels with
  | [] => ([], g)
  | s :: rest =>
      let '(c, g1) := getColor s g in
      let '(cs, g2) := getColors rest g1 in
      (c :: cs, g2)
  end.

(** ** Vocabulary of the further properties *)

(** No code unit of [s] is white space. *)
Definition noWhiteSpace (s : jsstring) : bool :=
  forallb (fun c => negb (isWhiteSpace c)) s.

(** [s] neither starts nor ends with white space. *)
Definition isTrimmed (s : jsstring) : Prop :=
  match s with
  | [] => True
  | c :: _ => isWhiteSpace c = false /\ isWhiteSpace (List.last s 32%N) = false
  end.

(** [lines.join(newline)], the inverse of [text.split(newline)]. *)
Fixpoint joinLines (lines : list jsstring) : jsstring :=
  match lines with
  | [] => []
  | [l] => l
  | l :: rest => l ++ 10%N :: joinLines rest
  end.

(** A field as [splitWhitespace] returns it inside a trimmed line: not
    empty and free of white space. *)
Definition isField (t : jsstring) : Prop := t <> [] /\ noWhiteSpace t = true.

(** The registry of [g'] extends that of [g]: what was assigned is still
    assigned to the same colour, and the cursor has not moved back. *)
Definition registryGrows (g g' : Globals) : Prop :=
  (forall s c, assignedColors g !! s = Some c -> assignedColors g' !! s = Some c)
  /\ (fallbackColorIndex g <= fallbackColorIndex g')%nat.

(** The label that a data line carries. *)
Definition labelOf (raw : jsstring) : jsstring := join (slice 2 (fieldsOf raw)).

(** What the parser knows about the colour of a region it has pushed. *)
Definition colourKnown (g : Globals) (r : Region) : Prop :=
  (forall c, DEFAULT_COLORS !! subtype r = Some c -> color r = c)
  /\ (novel (subtype r) -> subtype r <> u16 "__proto__" ->
      assignedColors g !! subtype r = Some (color r)).

(** Every colour assigned so far is a fallback colour. *)
Definition fromPalette (g : Globals) : Prop :=
  forall s c, assignedColors g !! s = Some c -> In c FALLBACK_COLORS.

Definition isLogHeader (e : ConsoleEvent) : bool :=
  match e with LogHeader _ => true | _ => false end.

(** The start, end and label that a line describes when it is a data
    line: not blank, not a comment, not a header, at least three fields,
    the first two with an integer prefix.  (The label of such a line is
    never empty, see [label_never_empty].) *)
Definition rowOf (raw : jsstring) : option (Z * Z * jsstring) :=
  let line := trim raw in
  if isEmpty line then None
  else if startsWith line 35 then None
  else if startsWith line 62 then None
  else
    let parts := splitWhitespace line in
    if (length parts <? 3)%nat then None
    else
      match parseInt (nth 0 parts []), parseInt (nth 1 parts []) with
      | Some a, Some b => Some (Z.min a b, Z.max a b, join (slice 2 parts))
      | _, _ => None
      end.

(** The lines that follow the first header line. *)
Fixpoint afterFirstHeader (lines : list jsstring) : list jsstring :=
  match lines with
  | [] => []
  | raw :: rest => if isHeaderLine raw then rest else afterFirstHeader rest
  end.

Definition rowOfRegion (r : Region) : Z * Z * jsstring :=
  (start r, end_ r, subtype r).

(** ** Counting and replaying the calls of a drawing *)

Definition countCalls (p : CtxCall -> bool) (ops : list CtxCall) : nat :=
  length (List.filter p ops).

Definition isSave (c : CtxCall) : bool :=
  match c with Save => true | _ => false end.
Definition isRestore (c : CtxCall) : bool :=
  match c with Restore => true | _ => false end.
Definition isBeginPath (c : CtxCall) : bool :=
  match c with BeginPath => true | _ => false end.
Definition isStroke (c : CtxCall) : bool :=
  match c with Stroke => true | _ => false end.
Definition isFillText (c : CtxCall) : bool :=
  match c with FillText _ _ _ => true | _ => false end.

(** The step [f] issues calls of which [n] satisfy [p]. *)
Definition Counts (p : CtxCall -> bool) (f : Draw) (n : nat) : Prop :=
  exists ops, WriteOnly f ops /\ countCalls p ops = n.

(** The number of (region, gene) pairs of the gene map that overlap. *)
Definition overlapCount (regions : list Region) : nat :=
  length (flat_map (fun region => List.filter (strictOverlap region) GENE_MAP)
                   regions).

(** The part of the state of a 2D context that the discipline below is
    about: the opacity flags pushed by [save], whether the current
    [globalAlpha] is 1, and whether a path has been begun and not yet
    stroked. *)
Record SurfaceState : Type := mkSurfaceState {
  saved : list bool;
  opaque : bool;
  pathOpen : bool
}.

(** A fresh context: nothing saved, opaque, no path. *)
Definition neutral : SurfaceState := mkSurfaceState [] true false.

(** One call under the discipline: path segments and [stroke] need a path
    begun since the last [stroke]; text and outlines need full opacity;
    [restore] needs a matching [save] and brings its opacity back. *)
Definition stepSurface (s : SurfaceState) (c : CtxCall) : option SurfaceState :=
  match c with
  | Save => Some (mkSurfaceState (opaque s :: saved s) (opaque s) (pathOpen s))
  | Restore =>
      match saved s with
      | o :: rest => Some (mkSurfaceState rest o (pathOpen s))
      | [] => None
      end
  | SetGlobalAlpha a => Some (mkSurfaceState (saved s) (Qeq_bool a 1) (pathOpen s))
  | BeginPath => Some (mkSurfaceState (saved s) (opaque s) true)
  | MoveTo _ _ | LineTo _ _ => if pathOpen s then Some s else None
  | Stroke =>
      if pathOpen s then Some (mkSurfaceState (saved s) (opaque s) false)
      else None
  | FillText _ _ _ | StrokeRect _ _ _ _ => if opaque s then Some s else None
  | _ => Some s
  end.

Fixpoint runSurface (s : SurfaceState) (ops : list CtxCall)
  : option SurfaceState :=
  match ops with
  | [] => Some s
  | c :: rest =>
      match stepSurface s c with
      | Some s' => runSurface s' rest
      | None => None
      end
  end.

(** From state [s] the calls of [f] follow the discipline and end in [s']. *)
Definition Runs (s : SurfaceState) (f : Draw) (s' : SurfaceState) : Prop :=
  exists ops, WriteOnly f ops /\ runSurface s ops = Some s'.

(** The passes of [drawToContext], in order. *)
Definition wholeDrawing (w h : Q) (regions : list Region) : Draw :=
  andThen (emit (SetFillStyle "white"))
    (andThen (emit (FillRect 0 0 w h))
      (andThen (forEach GENE_MAP drawGene)
        (andThen (drawOverlays GENE_MAP regions)
          (andThen drawGeneNames
            (andThen drawConnectors
              (andThen (drawBreakpoints regions)
                (andThen drawAxis (drawLegend regions)))))))).


(** A command line made of flag and value pairs. *)
Definition flatten (pairs : list (string * string)) : list string :=
  flat_map (fun fv => [fst fv; snd fv]) pairs.

(** The value of the last pair with the given flag. *)
Definition lastValue (flag : string) (pairs : list (string * string))
  (before : option string) : option string :=
  fold_left (fun acc fv => if (fst fv =? flag)%string then Some (snd fv) else acc)
            pairs before.

Definition isFlag (s : string) : bool :=
  ((s =? "-i") || (s =? "-pdf") || (s =? "-png"))%string.



(** * Properties *)

(** ** Breakpoint calculator *)

Section Breakpoints.
Local Open Scope Z_scope.

Lemma insertByStart_perm r l : Permutation (r :: l) (insertByStart r l).
Proof.
  induction l as [|x l IH]; simpl; [reflexivity|].
  destruct (start x <? start r); [|reflexivity].
  rewrite perm_swap. now apply perm_skip.
Qed.

Lemma sortByStart_perm regions : Permutation regions (sortByStart regions).
Proof.
  induction regions as [|r l IH]; simpl; [constructor|].
  rewrite <- insertByStart_perm. now apply perm_skip.
Qed.

Lemma sortByStart_length regions :
  length (sortByStart regions) = length regions.
Proof. symmetry. apply Permutation_length, sortByStart_perm. Qed.

Lemma insertByStart_sorted r l :
  StronglySorted byStart l -> StronglySorted byStart (insertByStart r l).
Proof.
  induction 1 as [|x l Hl IH Hx]; simpl.
  - repeat constructor.
  - destruct (Z.ltb_spec (start x) (start r)) as [Hlt|Hge].
    + constructor; [exact IH|].
      rewrite List.Forall_forall in *. intros y Hy.
      apply (Permutation_in _ (Permutation_sym (insertByStart_perm r l))) in Hy.
      destruct Hy as [<-|Hy]; [unfold byStart; lia | now apply Hx].
    + constructor; [now constructor|].
      constructor; [exact Hge|].
      rewrite List.Forall_forall in *. intros y Hy.
      specialize (Hx y Hy). unfold byStart in *. lia.
Qed.

Lemma sortByStart_sorted regions : StronglySorted byStart (sortByStart regions).
Proof.
  induction regions as [|r l IH]; simpl; [constructor|].
  now apply insertByStart_sorted.
Qed.

(** Stability: regions with equal [start] keep their relative order. *)
Lemma insertByStart_stable v r l :
  List.filter (fun x => start x =? v) (insertByStart r l)
  = List.filter (fun x => start x =? v) (r :: l).
Proof.
  induction l as [|x l IH]; [reflexivity|].
  cbn [insertByStart].
  destruct (Z.ltb_spec (start x) (start r)) as [Hlt|Hge]; [|reflexivity].
  cbn [List.filter] in *. rewrite IH.
  destruct (Z.eqb_spec (start x) v) as [Hx|Hx];
    destruct (Z.eqb_spec (start r) v) as [Hr|Hr]; try reflexivity.
  lia.
Qed.

Lemma sortByStart_stable v regions :
  List.filter (fun x => start x =? v) (sortByStart regions)
  = List.filter (fun x => start x =? v) regions.
Proof.
  induction regions as [|r l IH]; [reflexivity|].
  cbn [sortByStart fold_right]. fold (sortByStart l).
  rewrite insertByStart_stable. cbn [List.filter]. now rewrite IH.
Qed.

Lemma breakpointLoop_marks n rs : forall i acc,
  (i + length rs = n)%nat ->
  breakpointLoop n i rs acc = acc ++ marksFrom i rs.
Proof.
  induction rs as [|r rest IH]; intros i acc Hn.
  - simpl. now rewrite List.app_nil_r.
  - cbn [breakpointLoop]. destruct rest as [|r' rest'].
    + simpl in Hn. replace (i =? n - 1)%nat with true
        by (symmetry; apply Nat.eqb_eq; lia).
      simpl. now rewrite <- List.app_assoc.
    + replace (i =? n - 1)%nat with false
        by (symmetry; apply Nat.eqb_neq; simpl in Hn; lia).
      rewrite IH by (simpl in *; lia).
      now rewrite <- List.app_assoc.
Qed.

Lemma marksFrom_length i rs :
  rs <> [] -> length (marksFrom i rs) = S (length rs).
Proof.
  revert i. induction rs as [|r rest IH]; intros i Hne; [congruence|].
  destruct rest as [|r' rest']; [reflexivity|].
  change (length (marksFrom i (r :: r' :: rest')))
    with (S (length (marksFrom (S i) (r' :: rest')))).
  now rewrite IH.
Qed.

Lemma marksFrom_position i rs d :
  rs <> [] ->
  List.map position (marksFrom i rs)
  = List.map start rs ++ [end_ (List.last rs d)].
Proof.
  revert i. induction rs as [|r rest IH]; intros i Hne; [congruence|].
  destruct rest as [|r' rest']; [reflexivity|].
  change (marksFrom i (r :: r' :: rest'))
    with (startMark i r :: marksFrom (S i) (r' :: rest')).
  cbn [List.map]. rewrite IH by discriminate. reflexivity.
Qed.

Lemma marksFrom_isLast i rs :
  rs <> [] ->
  List.map isLast (marksFrom i rs) = repeat false (length rs) ++ [true].
Proof.
  revert i. induction rs as [|r rest IH]; intros i Hne; [congruence|].
  destruct rest as [|r' rest']; [reflexivity|].
  change (marksFrom i (r :: r' :: rest'))
    with (startMark i r :: marksFrom (S i) (r' :: rest')).
  cbn [List.map]. rewrite IH by discriminate. reflexivity.
Qed.

Lemma marksFrom_isFirst_later i rs :
  List.map isFirst (marksFrom (S i) rs) = repeat false (length (marksFrom (S i) rs)).
Proof.
  revert i. induction rs as [|r rest IH]; intros i; [reflexivity|].
  destruct rest as [|r' rest']; [reflexivity|].
  change (marksFrom (S i) (r :: r' :: rest'))
    with (startMark (S i) r :: marksFrom (S (S i)) (r' :: rest')).
  cbn [List.map length repeat]. now rewrite IH.
Qed.

Lemma marksFrom_isFirst rs :
  rs <> [] ->
  List.map isFirst (marksFrom 0 rs) = true :: repeat false (length rs).
Proof.
  intros Hne. destruct rs as [|r rest]; [congruence|].
  destruct rest as [|r' rest']; [reflexivity|].
  change (marksFrom 0 (r :: r' :: rest'))
    with (startMark 0 r :: marksFrom 1 (r' :: rest')).
  cbn [List.map]. rewrite marksFrom_isFirst_later.
  rewrite marksFrom_length by discriminate. reflexivity.
Qed.

Lemma marksFrom_displayValue i rs :
  List.map displayValue (marksFrom i rs) = List.map position (marksFrom i rs).
Proof.
  revert i. induction rs as [|r rest IH]; intros i; [reflexivity|].
  destruct rest as [|r' rest']; [reflexivity|].
  change (marksFrom i (r :: r' :: rest'))
    with (startMark i r :: marksFrom (S i) (r' :: rest')).
  cbn [List.map]. now rewrite IH.
Qed.

Lemma calculateBreakpoints_marks regions :
  calculateBreakpoints regions = marksFrom 0 (sortByStart regions).
Proof.
  unfold calculateBreakpoints.
  destruct regions as [|r l]; [reflexivity|].
  cbn [length Nat.eqb].
  now rewrite breakpointLoop_marks by reflexivity.
Qed.
End Breakpoints.

(** C1 (amended): the empty region list yields no breakpoint; a non-empty
    list of n regions yields n + 1 breakpoints: the start of every region, in
    stable ascending order of start (only the first is flagged isFirst), then
    the end of the last sorted region (the only one flagged isLast). *)
Theorem C1_breakpoints_all_starts_then_last_end :
  calculateBreakpoints [] = [] /\
  forall (regions : list Region) (d : Region), regions <> [] ->
    let sorted := sortByStart regions in
    let bps := calculateBreakpoints regions in
    (Permutation regions sorted /\ StronglySorted byStart sorted
     /\ forall v, List.filter (fun x => start x =? v)%Z sorted
                  = List.filter (fun x => start x =? v)%Z regions)
    /\ length bps = S (length regions)
    /\ List.map position bps = List.map start sorted ++ [end_ (List.last sorted d)]
    /\ List.map displayValue bps = List.map position bps
    /\ List.map isFirst bps = true :: repeat false (length regions)
    /\ List.map isLast bps = repeat false (length regions) ++ [true].
Proof.
  split; [reflexivity|].
  intros regions d Hne sorted bps.
  assert (Hs : sorted <> []).
  { intros E. apply Hne. apply List.length_zero_iff_nil.
    rewrite <- sortByStart_length. fold sorted. now rewrite E. }
  subst bps. rewrite calculateBreakpoints_marks. fold sorted.
  split; [|repeat split].
  - split; [apply sortByStart_perm|].
    split; [apply sortByStart_sorted|].
    intros v. apply sortByStart_stable.
  - rewrite marksFrom_length by exact Hs.
    unfold sorted. now rewrite sortByStart_length.
  - now apply marksFrom_position.
  - apply marksFrom_displayValue.
  - rewrite marksFrom_isFirst by exact Hs.
    unfold sorted. now rewrite sortByStart_length.
  - rewrite marksFrom_isLast by exact Hs.
    unfold sorted. now rewrite sortByStart_length.
Qed.

Lemma C1_breakpoints_example :
  length (calculateBreakpoints exampleRegions) = S (length exampleRegions)
  /\ List.map position (calculateBreakpoints exampleRegions)
     = List.map start (sortByStart exampleRegions)
       ++ [end_ (List.last (sortByStart exampleRegions) (mkRegion 0 0 [] EmptyString))].
Proof.
  destruct (proj2 C1_breakpoints_all_starts_then_last_end exampleRegions
              (mkRegion 0 0 [] EmptyString) ltac:(discriminate))
    as (_ & Hlen & Hpos & _).
  split; [exact Hlen | exact Hpos].
Defined.

(** The claim C1 fails on the two regions 100..500 and 500..1000: three
    breakpoints are returned, the inner boundary 500 among them. *)
Lemma C1_two_regions_three_breakpoints :
  (2 <= length exampleRegions)%nat
  /\ length (calculateBreakpoints exampleRegions) <> 2%nat
  /\ calculateBreakpoints exampleRegions
     = [ mkBreakpoint 100 100 true false;
         mkBreakpoint 500 500 false false;
         mkBreakpoint 1000 1000 false true ].
Proof. repeat split; [simpl; lia | discriminate]. Qed.

(** C2 (amended): a list of exactly one region yields two breakpoints, the
    region's start flagged isFirst and then its end flagged isLast. *)
Theorem C2_single_region_two_breakpoints :
  forall regions : list Region,
    length regions = 1%nat ->
    exists r,
      regions = [r]
      /\ calculateBreakpoints regions
         = [ mkBreakpoint (start r) (start r) true false;
             mkBreakpoint (end_ r) (end_ r) false true ].
Proof.
  intros regions Hlen.
  destruct regions as [|r [|r' rest]]; try discriminate.
  exists r. split; [reflexivity|].
  rewrite calculateBreakpoints_marks. reflexivity.
Qed.

Lemma C2_single_region_example :
  exists r,
    [mkRegion 100 500 (u16 "B") "#3F98F2"] = [r]
    /\ calculateBreakpoints [mkRegion 100 500 (u16 "B") "#3F98F2"]
       = [ mkBreakpoint (start r) (start r) true false;
           mkBreakpoint (end_ r) (end_ r) false true ].
Proof.
  apply C2_single_region_two_breakpoints. reflexivity.
Defined.

(** The claim C2 fails on the single region 100..500: the end
    breakpoint is emitted as well. *)
Lemma C2_single_region_not_one_breakpoint :
  length (calculateBreakpoints [mkRegion 100 500 (u16 "B") "#3F98F2"]) <> 1%nat
  /\ In (mkBreakpoint 500 500 false true)
        (calculateBreakpoints [mkRegion 100 500 (u16 "B") "#3F98F2"]).
Proof. split; [discriminate | right; left; reflexivity]. Qed.

(** ** Coordinate scale *)

Section Scale.
Local Open Scope Q_scope.



End Scale.

(** ** Drawing steps only issue calls *)

Section WriteOnly.
Lemma issue_nil ctx : issue [] ctx = ctx.
Proof. destruct ctx; unfold issue; simpl. now rewrite List.app_nil_r. Qed.

Lemma issue_issue a b ctx : issue b (issue a ctx) = issue (a ++ b) ctx.
Proof. unfold issue; simpl. now rewrite List.app_assoc. Qed.

Lemma calls_issue ops ctx : calls (issue ops ctx) = calls ctx ++ ops.
Proof. reflexivity. Qed.

Lemma WriteOnly_emit c : WriteOnly (emit c) [c].
Proof. intros ctx. reflexivity. Qed.

Lemma WriteOnly_skip : WriteOnly skip [].
Proof. intros ctx. unfold skip. now rewrite issue_nil. Qed.

Lemma WriteOnly_andThen f g a b :
  WriteOnly f a -> WriteOnly g b -> WriteOnly (andThen f g) (a ++ b).
Proof.
  intros Hf Hg ctx. unfold andThen. now rewrite Hf, Hg, issue_issue.
Qed.

Lemma WriteOnly_if (c : bool) f g a b :
  WriteOnly f a -> WriteOnly g b ->
  WriteOnly (if c then f else g) (if c then a else b).
Proof. now destruct c. Qed.

Lemma WriteOnly_forEach {A} (xs : list A) body ops :
  (forall x, WriteOnly (body x) (ops x)) ->
  WriteOnly (forEach xs body) (flat_map ops xs).
Proof.
  intros Hbody. unfold forEach.
  induction xs as [|x xs IH]; intros ctx; simpl.
  - now rewrite issue_nil.
  - now rewrite Hbody, IH, issue_issue.
Qed.


Lemma WriteOnly_ext f ops ops' :
  ops = ops' -> WriteOnly f ops -> WriteOnly f ops'.
Proof. now intros ->. Qed.
End WriteOnly.

(** ** Overlay pass *)

Lemma drawOverlay_calls region gene :
  WriteOnly (drawOverlay region gene)
            (if strictOverlap region gene then overlayCalls region gene else []).
Proof.
  unfold drawOverlay. fold (strictOverlap region gene).
  apply WriteOnly_if; [|apply WriteOnly_skip].
  unfold overlayCalls.
  repeat (eapply WriteOnly_ext;
          [|apply WriteOnly_andThen; [apply WriteOnly_emit|]]; [reflexivity|]).
  apply WriteOnly_emit.
Qed.

Lemma drawOverlays_calls genes regions :
  WriteOnly (drawOverlays genes regions) (overlayPassCalls genes regions).
Proof.
  unfold drawOverlays, overlayPassCalls.
  apply WriteOnly_forEach. intros region.
  apply WriteOnly_forEach. intros gene. apply drawOverlay_calls.
Qed.

Lemma count_fillRect_overlays region genes :
  length (List.filter isFillRect
            (flat_map (fun gene =>
               if strictOverlap region gene then overlayCalls region gene else [])
               genes))
  = length (List.filter (strictOverlap region) genes).
Proof.
  induction genes as [|g genes IH]; [reflexivity|].
  cbn [flat_map List.filter]. rewrite List.filter_app, List.length_app, IH.
  now destruct (strictOverlap region g).
Qed.



(** ** Legend *)

Section Legend.
Implicit Types (m : list (jsstring * string)) (regions : list Region).








End Legend.



(** ** Input parser *)

(** Case analysis on the body of the parsing loop. *)
Ltac parseLine_cases :=
  unfold parseLine, bind, ret, emitConsole;
  repeat match goal with
    | |- context [if ?b then _ else _] => destruct b eqn:?
    | |- context [match parseInt ?x with _ => _ end] =>
        destruct (parseInt x) eqn:?
    | |- context [match getColor ?s ?g with _ => _ end] =>
        destruct (getColor s g) as [[?|] ?] eqn:?
    end.

Section Parser.
Implicit Types (raw text : jsstring) (g : Globals) (rs : list Region).

Lemma getColor_console s g res g' :
  getColor s g = (res, g') -> console g' = console g.
Proof.
  unfold getColor. destruct (DEFAULT_COLORS !! s); [now intros [= _ <-]|].
  destruct (hasOwnProperty (assignedColors g) s) as [[|]|];
    now intros [= _ <-].
Qed.

Lemma withConsole_nil g : withConsole g [] = g.
Proof. destruct g; unfold withConsole; simpl. now rewrite List.app_nil_r. Qed.

(** Before the header nothing is parsed and nothing is printed. *)
Lemma parseLine_no_header i raw rs g :
  isHeaderLine raw = false ->
  parseLine i raw false rs g = (Normal (false, rs), g).
Proof.
  unfold isHeaderLine. intros H. unfold parseLine. rewrite H.
  destruct (isEmpty (trim raw)); [reflexivity|].
  now destruct (startsWith (trim raw) 35).
Qed.

Lemma parseLoop_no_header lines : forall i rs g,
  (forall l, In l lines -> isHeaderLine l = false) ->
  parseLoop lines i false rs g = (Normal (false, rs), g).
Proof.
  induction lines as [|raw lines IH]; intros i rs g H; [reflexivity|].
  cbn [parseLoop]. unfold bind at 1.
  rewrite parseLine_no_header by (apply H; now left).
  apply IH. intros l Hl. apply H. now right.
Qed.

Lemma header_not_comment raw :
  isHeaderLine raw = true ->
  isEmpty (trim raw) = false /\ startsWith (trim raw) 35 = false.
Proof.
  unfold isHeaderLine. destruct (trim raw) as [|c s]; [discriminate|].
  cbn. intros H%N.eqb_eq. subst c. now split.
Qed.

(** The flag after a line, and what the line may print. *)
Lemma parseLine_flag i raw h rs g h' rs' g' :
  parseLine i raw h rs g = (Normal (h', rs'), g') ->
  h' = h || isHeaderLine raw.
Proof.
  destruct (isHeaderLine raw) eqn:Hh.
  - destruct (header_not_comment raw Hh) as [He Hc].
    unfold isHeaderLine in Hh. unfold parseLine. rewrite He, Hc, Hh.
    cbn. intros [= <- _ _]. now rewrite orb_true_r.
  - rewrite orb_false_r. unfold isHeaderLine in Hh. revert Hh.
    parseLine_cases; intros; congruence.
Qed.

Lemma parseLine_console i raw h rs g res g' :
  parseLine i raw h rs g = (res, g') ->
  exists new, console g' = console g ++ new /\ ~ In WarnNoHeader new.
Proof.
  parseLine_cases; intros [= <- <-]; cbn [console];
    try (exists []; rewrite List.app_nil_r; split;
         [first [reflexivity | eapply getColor_console; eassumption]
         | intros []]);
    eexists; (split; [reflexivity|]); intros [?|[]]; discriminate.
Qed.

Lemma parseLoop_console lines : forall i h rs g res g',
  parseLoop lines i h rs g = (res, g') ->
  exists new, console g' = console g ++ new /\ ~ In WarnNoHeader new.
Proof.
  induction lines as [|raw lines IH]; intros i h rs g res g'.
  - intros [= <- <-]. exists []. now rewrite List.app_nil_r.
  - cbn [parseLoop]. unfold bind at 1.
    destruct (parseLine i raw h rs g) as [[[h1 rs1]|] g1] eqn:Hline;
      apply parseLine_console in Hline as (n1 & E1 & N1).
    + intros (n2 & E2 & N2)%IH. exists (n1 ++ n2).
      rewrite E2, E1, List.app_assoc. split; [reflexivity|].
      rewrite List.in_app_iff. tauto.
    + intros [= <- <-]. eauto.
Qed.

Lemma parseLoop_flag lines : forall i h rs g h' rs' g',
  parseLoop lines i h rs g = (Normal (h', rs'), g') ->
  h' = h || existsb isHeaderLine lines.
Proof.
  induction lines as [|raw lines IH]; intros i h rs g h' rs' g'.
  - intros [= <- _ _]. now rewrite orb_false_r.
  - cbn [parseLoop existsb]. unfold bind at 1.
    destruct (parseLine i raw h rs g) as [[[h1 rs1]|] g1] eqn:Hline;
      [|discriminate].
    apply parseLine_flag in Hline as ->.
    intros ->%IH. now rewrite orb_assoc.
Qed.
End Parser.

(** C3 (amended): a text that is not blank and has no line starting (after
    trimming) with '>' parses to the empty list and prints exactly the
    no-header warning; a blank text parses to the empty list and prints
    nothing; a text with a header line never prints that warning. *)
Theorem C3_no_header_warning :
  (forall text g,
     trim text <> [] ->
     (forall l, In l (splitLines text) -> startsWith (trim l) 62 = false) ->
     parseInput text g = (Normal [], withConsole g [WarnNoHeader]))
  /\ (forall text g, trim text = [] -> parseInput text g = (Normal [], g))
  /\ (forall text g res g',
        (exists l, In l (splitLines text) /\ startsWith (trim l) 62 = true) ->
        parseInput text g = (res, g') ->
        exists new, console g' = console g ++ new /\ ~ In WarnNoHeader new).
Proof.
  split; [|split].
  - intros text g Hne Hlines. unfold parseInput.
    destruct (trim text) eqn:E; [congruence|]. cbn [isEmpty].
    unfold bind at 1. rewrite parseLoop_no_header by exact Hlines.
    reflexivity.
  - intros text g E. unfold parseInput. now rewrite E.
  - intros text g res g' (l & Hl & Hh). unfold parseInput.
    destruct (isEmpty (trim text)).
    { intros [= <- <-]. exists []. now rewrite List.app_nil_r. }
    unfold bind at 1.
    destruct (parseLoop (splitLines text) 0 false [] g)
      as [[[h rs]|] g1] eqn:Hloop.
    + assert (h = true) as ->.
      { apply parseLoop_flag in Hloop as ->. cbn.
        apply List.existsb_exists. now exists l. }
      apply parseLoop_console in Hloop. cbn. now intros [= <- <-].
    + apply parseLoop_console in Hloop. now intros [= <- <-].
Qed.

Lemma C3_no_header_example :
  parseInput (fileOf ["# comment"; "100 500 B"]%string) initialGlobals
  = (Normal [], withConsole initialGlobals [WarnNoHeader])
  /\ parseInput (fileOf [EmptyString; " "]%string) initialGlobals = (Normal [], initialGlobals)
  /\ exists new,
       console (snd (parseInput (fileOf [">seq1"; "# nothing"]%string) initialGlobals))
       = console initialGlobals ++ new
       /\ ~ In WarnNoHeader new.
Proof.
  split; [|split].
  - apply (proj1 C3_no_header_warning); [discriminate|].
    intros l Hl. vm_compute in Hl.
    destruct Hl as [<-|[<-|[]]]; reflexivity.
  - apply (proj1 (proj2 C3_no_header_warning)). reflexivity.
  - apply (proj2 (proj2 C3_no_header_warning)
             (fileOf [">seq1"; "# nothing"]%string) initialGlobals
             (fst (parseInput (fileOf [">seq1"; "# nothing"]%string) initialGlobals))).
    + exists (u16 ">seq1"). split; [left; reflexivity | reflexivity].
    + now destruct (parseInput _ _).
Defined.

(** The claim C3 fails on a text of blank lines: no line begins with '>',
    the result is empty, and no warning at all is printed. *)
Lemma C3_blank_text_no_warning :
  (forall l, In l (splitLines (fileOf [EmptyString; " "; EmptyString]%string)) ->
             startsWith (trim l) 62 = false /\ startsWith l 62 = false)
  /\ fst (parseInput (fileOf [EmptyString; " "; EmptyString]%string) initialGlobals) = Normal []
  /\ console (snd (parseInput (fileOf [EmptyString; " "; EmptyString]%string) initialGlobals)) = []
  /\ count_occ (fun a b : bool => Bool.bool_dec a b)
       (List.map (fun e => match e with WarnNoHeader => true | _ => false end)
          (console (snd (parseInput (fileOf [EmptyString; " "; EmptyString]%string) initialGlobals))))
       true <> 1%nat.
Proof.
  split; [|repeat split; discriminate].
  intros l Hl. vm_compute in Hl.
  destruct Hl as [<-|[<-|[<-|[]]]]; split; reflexivity.
Qed.

(** ** Regions come from data lines, in file order *)

Section ParsedRegions.
Implicit Types (raw text : jsstring) (g : Globals) (rs : list Region).

Lemma parseLine_regions i raw h rs g h' rs' g' :
  parseLine i raw h rs g = (Normal (h', rs'), g') ->
  rs' = rs \/ exists r, rs' = rs ++ [r] /\ fromLine raw r.
Proof.
  parseLine_cases; intros [= <- <- <-]; try (now left); right;
    (eexists; split; [reflexivity|]);
    match goal with
    | Ha : parseInt _ = Some ?a, Hb : parseInt _ = Some ?b |- _ =>
        exists a, b; repeat split; try assumption; cbn; lia
    end.
Qed.

(** The loop from line [length pre] on: the regions it adds come from the
    lines it reads, one source line each, in increasing line order. *)
Lemma parseLoop_regions lines : forall pre h rs g h' rs' g',
  parseLoop lines (length pre) h rs g = (Normal (h', rs'), g') ->
  exists new src,
    rs' = rs ++ new
    /\ List.Forall2 (fun j r => exists raw,
                       nth_error (pre ++ lines) j = Some raw /\ fromLine raw r)
                    src new
    /\ List.Forall (fun j => (length pre <= j)%nat) src
    /\ StronglySorted lt src.
Proof.
  induction lines as [|raw lines IH]; intros pre h rs g h' rs' g'.
  - intros [= <- <- <-]. exists [], []. rewrite List.app_nil_r.
    repeat split; constructor.
  - cbn [parseLoop]. unfold bind at 1.
    destruct (parseLine (length pre) raw h rs g) as [[[h1 rs1]|] g1] eqn:Hline;
      [|discriminate].
    replace (S (length pre)) with (length (pre ++ [raw]))
      by (rewrite List.length_app; simpl; lia).
    intros (new & src & -> & Hsrc & Hge & Hsorted)%IH.
    rewrite <- List.app_assoc in Hsrc. cbn [List.app] in Hsrc.
    rewrite List.length_app in Hge. cbn [length] in Hge.
    apply parseLine_regions in Hline as [->|(r & -> & Hr)].
    + exists new, src. repeat split; try assumption.
      eapply List.Forall_impl; [|exact Hge]. cbn. lia.
    + exists (r :: new), (length pre :: src).
      rewrite <- List.app_assoc. repeat split.
      * constructor; [|exact Hsrc]. exists raw. split; [|exact Hr].
        rewrite List.nth_error_app2 by lia. now rewrite Nat.sub_diag.
      * constructor; [lia|].
        eapply List.Forall_impl; [|exact Hge]. cbn. lia.
      * constructor; [exact Hsorted|].
        eapply List.Forall_impl; [|exact Hge]. cbn. lia.
Qed.

Lemma fromLine_ordered raw r : fromLine raw r -> (start r <= end_ r)%Z.
Proof. intros (a & b & _ & _ & -> & -> & _). lia. Qed.


End ParsedRegions.

(** C5: every region returned by the parser comes from one source line
    whose two numeric fields parse to integers rawA and rawB, with
    start = min(rawA, rawB) and end = max(rawA, rawB), hence start <= end;
    the regions appear in the order of their source lines; the line
    [20 10 B] gives start 10 and end 20. *)
Theorem C5_regions_normalized_in_file_order :
  (forall text g regions g',
     parseInput text g = (Normal regions, g') ->
     List.Forall (fun r => (start r <= end_ r)%Z) regions
     /\ exists src : list nat,
          StronglySorted lt src
          /\ List.Forall2
               (fun j r =>
                  exists raw rawA rawB,
                    nth_error (splitLines text) j = Some raw
                    /\ parseInt (nth 0 (splitWhitespace (trim raw)) []) = Some rawA
                    /\ parseInt (nth 1 (splitWhitespace (trim raw)) []) = Some rawB
                    /\ start r = Z.min rawA rawB
                    /\ end_ r = Z.max rawA rawB
                    /\ subtype r = join (slice 2 (splitWhitespace (trim raw))))
               src regions)
  /\ parseInput (fileOf [">seq1"; "20 10 B"]%string) initialGlobals
     = (Normal [mkRegion 10 20 (u16 "B") "#3F98F2"],
        withConsole initialGlobals [LogHeader (u16 ">seq1")]).
Proof.
  split; [|reflexivity].
  intros text g regions g'. unfold parseInput.
  destruct (isEmpty (trim text)).
  { intros [= <- _]. split; [constructor|]. exists []. split; constructor. }
  unfold bind at 1.
  destruct (parseLoop (splitLines text) 0 false [] g) as [[[h rs]|] g1] eqn:Hloop;
    [|discriminate].
  apply (parseLoop_regions _ []) in Hloop
    as (new & src & -> & Hsrc & _ & Hsorted).
  cbn [List.app] in *.
  intros Hret.
  assert (regions = new) as ->.
  { revert Hret. unfold bind, ret, emitConsole. destruct (negb h); now intros [= <-]. }
  split.
  - clear -Hsrc. induction Hsrc as [|j r src new (raw & _ & Hr) _ IH];
      constructor; [eapply fromLine_ordered; eassumption | exact IH].
  - exists src. split; [exact Hsorted|].
    eapply List.Forall2_impl; [|exact Hsrc].
    intros j r (raw & Hj & a & b & H). exists raw, a, b. now split.
Qed.

Lemma C5_regions_example :
  List.Forall (fun r => (start r <= end_ r)%Z)
    [mkRegion 10 20 (u16 "B") "#3F98F2"; mkRegion 5 30 (u16 "X 1") "#FF6347"].
Proof.
  apply (proj1 C5_regions_normalized_in_file_order
           (fileOf [">seq1"; "20 10 B"; "oops"; "5 30 X  1"]%string)
           initialGlobals _
           (snd (parseInput (fileOf [">seq1"; "20 10 B"; "oops"; "5 30 X  1"]%string)
                            initialGlobals))).
  reflexivity.
Defined.



(** ** Determinism of parsing and drawing *)

Section ConsoleBlind.
Lemma sameRegistry_refl g : sameRegistry g g.
Proof. now split. Qed.








End ConsoleBlind.

Section Issues.

Lemma Issues_skip : Issues skip.
Proof. eexists. apply WriteOnly_skip. Qed.

Lemma Issues_andThen f g : Issues f -> Issues g -> Issues (andThen f g).
Proof. intros [a Ha] [b Hb]. eexists. now apply WriteOnly_andThen. Qed.



Lemma Issues_forEachFrom {A} (xs : list A) body : forall i,
  (forall x j, Issues (body x j)) -> Issues (forEachFrom i xs body).
Proof.
  induction xs as [|x xs IH]; intros i Hbody; cbn [forEachFrom].
  - apply Issues_skip.
  - apply Issues_andThen; [apply Hbody | now apply IH].
Qed.
End Issues.





(** ** Colour registry *)

Section Registry.
Implicit Types (s : jsstring) (g : Globals).

Lemma getColor_default s c g :
  DEFAULT_COLORS !! s = Some c -> getColor s g = (Normal c, g).
Proof. intros H. unfold getColor. now rewrite H. Qed.

(** The predefined colour of B, whatever has been assigned before. *)
Lemma getColor_B g : getColor (u16 "B") g = (Normal "#3F98F2"%string, g).
Proof. apply getColor_default. vm_compute. reflexivity. Qed.

Lemma getColor_first_sighting s g :
  novel s ->
  assignedColors g !! u16 "hasOwnProperty" = None ->
  assignedColors g !! s = None ->
  getColor s g
  = (Normal (fallbackAt (fallbackColorIndex g mod 10)),
     mkGlobals
       (setProperty s (fallbackAt (fallbackColorIndex g mod 10)) (assignedColors g))
       (S (fallbackColorIndex g)) (console g)).
Proof.
  intros Hnovel Hshadow Hnew. unfold getColor, hasOwnProperty.
  rewrite Hnovel. rewrite Hshadow. rewrite Hnew. reflexivity.
Qed.

(** An ordinary label keeps the colour of its first sighting, and asking
    again changes nothing. *)
Lemma getColor_again s g c g' :
  ordinaryLabel s ->
  getColor s g = (Normal c, g') ->
  getColor s g' = (Normal c, g').
Proof.
  intros [Hproto Hown]. unfold getColor.
  destruct (DEFAULT_COLORS !! s) as [d|] eqn:Hd; [now intros [= <- <-]|].
  unfold hasOwnProperty.
  destruct (assignedColors g !! u16 "hasOwnProperty") eqn:Hshadow;
    [discriminate|].
  destruct (assignedColors g !! s) as [a|] eqn:Ha.
  - rewrite bool_decide_eq_true_2 by eauto. intros [= <- <-].
    rewrite Hshadow, Ha. now rewrite bool_decide_eq_true_2 by eauto.
  - rewrite bool_decide_eq_false_2 by (intros [? ?]; discriminate).
    intros [= <- <-]. cbn [assignedColors fallbackColorIndex console].
    unfold setProperty. rewrite decide_False by exact Hproto.
    rewrite lookup_insert_ne by exact Hown.
    rewrite Hshadow, lookup_insert_eq.
    now rewrite bool_decide_eq_true_2 by eauto.
Qed.

(** Distinct ordinary novel labels, none assigned yet, take the fallback
    colours in turn from the cursor on. *)
Lemma getColors_distinct labels : forall g,
  List.NoDup labels ->
  List.Forall (fun s => novel s /\ ordinaryLabel s
                        /\ assignedColors g !! s = None) labels ->
  assignedColors g !! u16 "hasOwnProperty" = None ->
  fst (getColors labels g)
  = List.map (fun j => Normal (fallbackAt ((fallbackColorIndex g + j) mod 10)))
             (List.seq 0 (length labels)).
Proof.
  induction labels as [|s labels IH]; intros g Hnd Hall Hshadow; [reflexivity|].
  apply List.NoDup_cons_iff in Hnd as [Hs Hnd].
  apply List.Forall_cons_iff in Hall as [(Hnovel & [Hproto Hown] & Hnew) Hall].
  cbn [getColors]. rewrite getColor_first_sighting by assumption.
  set (g1 := mkGlobals _ _ _).
  specialize (IH g1 Hnd).
  destruct (getColors labels g1) as [cs g2]. cbn [fst] in *.
  cbn [length List.seq List.map]. rewrite Nat.add_0_r. f_equal.
  rewrite IH.
  - rewrite <- List.seq_shift, List.map_map. apply List.map_ext.
    intros j. subst g1. cbn [fallbackColorIndex].
    assert (E : (S (fallbackColorIndex g) + j = fallbackColorIndex g + S j)%nat)
      by lia.
    now rewrite E.
  - rewrite List.Forall_forall in *. intros t Ht.
    destruct (Hall t Ht) as (Hn & Ho & Hnone). repeat split; try apply Ho;
      try exact Hn.
    subst g1. cbn [assignedColors]. unfold setProperty.
    rewrite decide_False by exact Hproto.
    rewrite lookup_insert_ne by (intros ->; contradiction). exact Hnone.
  - subst g1. cbn [assignedColors]. unfold setProperty.
    rewrite decide_False by exact Hproto.
    now rewrite lookup_insert_ne by exact Hown.
Qed.

(** The only exception: a TypeError, raised when the registry object holds
    an own property named after the method that is called on it. *)
Lemma getColor_throws s g g' :
  getColor s g = (TypeError, g') ->
  g' = g /\ is_Some (assignedColors g !! u16 "hasOwnProperty").
Proof.
  unfold getColor. destruct (DEFAULT_COLORS !! s); [discriminate|].
  unfold hasOwnProperty.
  destruct (assignedColors g !! u16 "hasOwnProperty") eqn:E.
  - intros [= <-]. eauto.
  - destruct (bool_decide _); discriminate.
Qed.

Lemma parseLine_throws i raw h rs g g' :
  parseLine i raw h rs g = (TypeError, g') ->
  is_Some (assignedColors g' !! u16 "hasOwnProperty").
Proof.
  parseLine_cases; try discriminate; intros [= <-];
    match goal with
    | H : getColor _ _ = (TypeError, _) |- _ =>
        apply getColor_throws in H as [-> H]; exact H
    end.
Qed.

Lemma parseLoop_throws lines : forall i h rs g g',
  parseLoop lines i h rs g = (TypeError, g') ->
  is_Some (assignedColors g' !! u16 "hasOwnProperty").
Proof.
  induction lines as [|raw lines IH]; intros i h rs g g'; [discriminate|].
  cbn [parseLoop]. unfold bind at 1.
  destruct (parseLine i raw h rs g) as [[[h1 rs1]|] g1] eqn:Hline.
  - apply IH.
  - intros [= <-]. eapply parseLine_throws, Hline.
Qed.

Lemma parseInput_throws text g g' :
  parseInput text g = (TypeError, g') ->
  is_Some (assignedColors g' !! u16 "hasOwnProperty").
Proof.
  unfold parseInput. destruct (isEmpty (trim text)); [discriminate|].
  unfold bind at 1.
  destruct (parseLoop (splitLines text) 0 false [] g) as [[[h rs]|] g1] eqn:Hloop.
  - unfold bind, ret, emitConsole. destruct (negb h); discriminate.
  - intros [= <-]. eapply parseLoop_throws, Hloop.
Qed.

Lemma fallback_consecutive_differ k :
  fallbackAt (k mod 10) <> fallbackAt (S k mod 10).
Proof.
  replace (S k mod 10)%nat with ((k mod 10 + 1) mod 10)%nat
    by (rewrite Nat.Div0.add_mod_idemp_l; f_equal; lia).
  pose proof (Nat.mod_upper_bound k 10 ltac:(lia)) as Hlt.
  destruct (k mod 10)%nat as [|[|[|[|[|[|[|[|[|[|r]]]]]]]]]];
    try discriminate; lia.
Qed.

Lemma fallback_cycles k : fallbackAt ((k + 10) mod 10) = fallbackAt (k mod 10).
Proof.
  f_equal. replace (k + 10)%nat with (k + 1 * 10)%nat by lia.
  apply Nat.Div0.mod_add.
Qed.

(** Without a reset the colours of a second parse depend on the first:
    the same text gets another fallback colour. *)
Lemma registry_carries_over :
  fst (parseInput (fileOf [">seq2"; "1 2 X1"]%string) initialGlobals)
  = Normal [mkRegion 1 2 (u16 "X1") "#FF6347"]
  /\ fst (parseInput (fileOf [">seq2"; "1 2 X1"]%string)
            (snd (parseInput (fileOf [">seq1"; "1 2 Y1"]%string) initialGlobals)))
     = Normal [mkRegion 1 2 (u16 "X1") "#20B2AA"].
Proof. split; vm_compute; reflexivity. Qed.

(** A label named after the inherited method shadows it: the next lookup
    of a label without a predefined colour raises a TypeError. *)
Lemma getColor_shadowed_method :
  fst (parseInput (fileOf [">seq1"; "1 2 hasOwnProperty"; "3 4 X1"]%string)
                  initialGlobals) = TypeError
  /\ exitCode (fst (main (mkParams None (Some "out.png"%string))
                      (fileOf [">seq1"; "1 2 hasOwnProperty"; "3 4 X1"]%string)
                      initialGlobals)) = 1%Z.
Proof. split; vm_compute; reflexivity. Qed.
End Registry.

(** C6, on the label [__proto__]: it has no predefined colour, yet every
    call of [getColor] with it returns the next fallback colour, since the
    assignment [assignedColors[subtype] = color] creates no own property for
    that name; two data lines with this label get different colours. *)
Theorem C6_proto_label_changes_colour :
  DEFAULT_COLORS !! u16 "__proto__" = None
  /\ fst (getColor (u16 "__proto__") initialGlobals) = Normal "#FF6347"%string
  /\ fst (getColor (u16 "__proto__")
            (snd (getColor (u16 "__proto__") initialGlobals)))
     = Normal "#20B2AA"%string
  /\ fst (getColors [u16 "__proto__"; u16 "__proto__"; u16 "X1"] initialGlobals)
     = [Normal "#FF6347"; Normal "#20B2AA"; Normal "#DDA0DD"]%string
  /\ fst (parseInput (fileOf [">seq1"; "1 2 __proto__"; "3 4 __proto__"]%string)
                     initialGlobals)
     = Normal [ mkRegion 1 2 (u16 "__proto__") "#FF6347";
                mkRegion 3 4 (u16 "__proto__") "#20B2AA" ].
Proof. repeat split; vm_compute; reflexivity. Qed.

(** * Further properties *)

(** ** Trimming, splitting and joining *)

Section Strings.
Implicit Types (s t : jsstring) (c : N).

Lemma trimStart_head s :
  match trimStart s with [] => True | c :: _ => isWhiteSpace c = false end.
Proof.
  induction s as [|c s IH]; [exact I|]. cbn [trimStart].
  destruct (isWhiteSpace c) eqn:E; [exact IH | exact E].
Qed.

Lemma trimStart_fixed s :
  match s with [] => True | c :: _ => isWhiteSpace c = false end ->
  trimStart s = s.
Proof. destruct s as [|c s]; [reflexivity|]. cbn. now intros ->. Qed.

Lemma trimStart_idem s : trimStart (trimStart s) = trimStart s.
Proof. apply trimStart_fixed, trimStart_head. Qed.

Lemma trimStart_nil_iff s : trimStart s = [] <-> forallb isWhiteSpace s = true.
Proof.
  induction s as [|c s IH]; [easy|]. cbn.
  destruct (isWhiteSpace c); [exact IH | easy].
Qed.

(** [trimStart] keeps a last code unit that is not white space. *)
Lemma trimStart_snoc s c :
  isWhiteSpace c = false -> exists t, trimStart (s ++ [c]) = t ++ [c].
Proof.
  intros Hc. induction s as [|d s [t IH]]; cbn.
  - rewrite Hc. now exists [].
  - destruct (isWhiteSpace d); [now exists t | now exists (d :: s)].
Qed.

Lemma trimEnd_head s c :
  isWhiteSpace c = false -> exists t, trimEnd (c :: s) = c :: t.
Proof.
  intros Hc. unfold trimEnd. cbn [rev].
  destruct (trimStart_snoc (rev s) c Hc) as [t ->].
  exists (rev t). now rewrite List.rev_app_distr.
Qed.

Lemma trimEnd_last s :
  match trimEnd s with
  | [] => True
  | _ :: _ => isWhiteSpace (List.last (trimEnd s) 32%N) = false
  end.
Proof.
  unfold trimEnd. pose proof (trimStart_head (rev s)) as H.
  destruct (trimStart (rev s)) as [|c t]; [exact I|].
  cbn [rev]. destruct (rev t ++ [c]) eqn:E.
  - now destruct (rev t).
  - rewrite <- E. now rewrite List.last_last.
Qed.

Lemma trimEnd_idem s : trimEnd (trimEnd s) = trimEnd s.
Proof. unfold trimEnd. now rewrite List.rev_involutive, trimStart_idem. Qed.

Lemma trim_isTrimmed s : isTrimmed (trim s).
Proof.
  unfold trim. pose proof (trimStart_head s) as Hh.
  pose proof (trimEnd_last (trimStart s)) as Hl.
  destruct (trimStart s) as [|c t] eqn:E; [exact I|].
  destruct (trimEnd_head t c Hh) as [u Hu]. rewrite Hu in *.
  now split.
Qed.

Lemma trimEnd_fixed s :
  isWhiteSpace (List.last s 32%N) = false -> trimEnd s = s.
Proof.
  intros H. unfold trimEnd.
  destruct s as [|c s] using List.rev_ind; [reflexivity|].
  rewrite List.last_last in H. rewrite List.rev_app_distr. cbn.
  rewrite H. cbn. now rewrite List.rev_involutive.
Qed.

Lemma isTrimmed_fixed s : isTrimmed s -> trim s = s.
Proof.
  destruct s as [|c s]; [reflexivity|]. intros [Hh Hl]. unfold trim.
  rewrite trimStart_fixed by exact Hh. now apply trimEnd_fixed.
Qed.

Lemma trim_nil_iff s : trim s = [] <-> forallb isWhiteSpace s = true.
Proof.
  rewrite <- trimStart_nil_iff. unfold trim. split.
  - intros H. pose proof (trimStart_head s) as Hh.
    destruct (trimStart s) as [|c t]; [reflexivity|].
    destruct (trimEnd_head t c Hh) as [u Hu]. congruence.
  - now intros ->.
Qed.
End Strings.



Section Fields.
Implicit Types (s t : jsstring) (ts : list jsstring).

Lemma splitFrom_cons b s : exists t ts, splitFrom b s = t :: ts.
Proof.
  revert b. induction s as [|c s IH]; intros b; cbn; [eauto|].
  destruct (isWhiteSpace c).
  - destruct b; [apply IH | eauto].
  - destruct (IH false) as (t & ts & ->). eauto.
Qed.

Lemma splitFrom_noWhiteSpace s : forall b,
  List.Forall (fun t => noWhiteSpace t = true) (splitFrom b s).
Proof.
  induction s as [|c s IH]; intros b; cbn.
  - repeat constructor.
  - destruct (isWhiteSpace c) eqn:Hc.
    + destruct b; [apply IH | constructor; [reflexivity | apply IH]].
    + specialize (IH false). destruct (splitFrom false s) as [|t ts].
      * repeat constructor. cbn. now rewrite Hc.
      * apply List.Forall_cons_iff in IH as [Ht Hts].
        constructor; [|exact Hts]. cbn. now rewrite Hc.
Qed.

(** In a string that ends outside white space, only the first field can be
    empty. *)
Lemma splitFrom_inner_nonempty s :
  isWhiteSpace (List.last s 32%N) = false ->
  List.Forall (fun t => t <> []) (splitFrom true s)
  /\ List.Forall (fun t => t <> []) (tl (splitFrom false s)).
Proof.
  induction s as [|c s IH]; [discriminate|]. intros Hlast.
  destruct s as [|c2 s2].
  - cbn in Hlast. cbn. rewrite Hlast. cbn. repeat constructor; discriminate.
  - assert (Hlast' : isWhiteSpace (List.last (c2 :: s2) 32%N) = false)
      by exact Hlast.
    destruct (IH Hlast') as [IHt IHf]. clear IH Hlast Hlast'.
    remember (c2 :: s2) as r eqn:Er. clear Er.
    cbn [splitFrom]. destruct (isWhiteSpace c).
    + cbn [tl]. now split.
    + destruct (splitFrom_cons false r) as (t & ts & E).
      rewrite E in *. cbn [tl] in *.
      split; [constructor; [discriminate | exact IHf] | exact IHf].
Qed.

Lemma splitWhitespace_fields s :
  s <> [] -> isTrimmed s -> List.Forall isField (splitWhitespace s).
Proof.
  intros Hne Htrim. destruct s as [|c s]; [congruence|].
  destruct Htrim as [Hh Hl].
  pose proof (splitFrom_noWhiteSpace (c :: s) false) as Hws.
  destruct (splitFrom_inner_nonempty (c :: s) Hl) as [_ Htl].
  unfold splitWhitespace in *. cbn [splitFrom] in *. rewrite Hh in *.
  destruct (splitFrom_cons false s) as (t & ts & E). rewrite E in *.
  cbn [tl] in Htl.
  apply List.Forall_cons_iff in Hws as [Ht Hts].
  constructor; [split; [discriminate | exact Ht]|].
  rewrite List.Forall_forall in *. intros u Hu. split; auto.
Qed.

Lemma splitFrom_true_head c s :
  isWhiteSpace c = false -> splitFrom true (c :: s) = splitFrom false (c :: s).
Proof. intros Hc. cbn. now rewrite Hc. Qed.

Lemma splitFrom_field_then t : forall c s,
  noWhiteSpace t = true -> isWhiteSpace c = true ->
  splitFrom false (t ++ c :: s) = t :: splitFrom true s.
Proof.
  induction t as [|d t IH]; intros c s Ht Hc.
  - cbn. now rewrite Hc.
  - cbn in Ht. apply andb_prop in Ht as [Hd Ht].
    apply negb_true_iff in Hd. cbn. rewrite Hd.
    now rewrite (IH c s Ht Hc).
Qed.

Lemma splitFrom_single t :
  noWhiteSpace t = true -> splitFrom false t = [t].
Proof.
  induction t as [|d t IH]; [reflexivity|]. cbn. intros H.
  apply andb_prop in H as [Hd Ht]. apply negb_true_iff in Hd.
  rewrite Hd. now rewrite IH.
Qed.

Lemma join_cons2 t u ts : join (t :: u :: ts) = t ++ 32%N :: join (u :: ts).
Proof. reflexivity. Qed.

Lemma join_head_field t ts :
  isField t -> exists c r, join (t :: ts) = c :: r /\ isWhiteSpace c = false.
Proof.
  intros [Hne Hws]. destruct t as [|c t]; [congruence|].
  cbn in Hws. apply andb_prop in Hws as [Hc _]. apply negb_true_iff in Hc.
  destruct ts; cbn; eauto.
Qed.

Lemma split_join ts :
  ts <> [] -> List.Forall isField ts -> splitWhitespace (join ts) = ts.
Proof.
  unfold splitWhitespace. induction ts as [|t ts IH]; [congruence|].
  intros _ Hall. apply List.Forall_cons_iff in Hall as [Ht Hts].
  destruct ts as [|u ts].
  - cbn [join]. apply splitFrom_single, Ht.
  - rewrite join_cons2, splitFrom_field_then by (apply Ht || reflexivity).
    f_equal. pose proof Hts as Hts'.
    apply List.Forall_cons_iff in Hts' as [Hu _].
    destruct (join_head_field u ts Hu) as (c & r & E & Hc).
    rewrite E, splitFrom_true_head by exact Hc. rewrite <- E.
    apply IH; [discriminate | exact Hts].
Qed.

Lemma join_fields_nonempty ts :
  ts <> [] -> List.Forall isField ts -> join ts <> [].
Proof.
  destruct ts as [|t ts]; [congruence|]. intros _ Hall.
  apply List.Forall_cons_iff in Hall as [Ht _].
  destruct (join_head_field t ts Ht) as (c & r & -> & _). discriminate.
Qed.
End Fields.

(** X2: splitting a trimmed, non-empty line on white space gives fields
    that are all non-empty and free of white space. *)
Theorem splitWhitespace_trimmed_line (raw : jsstring) :
  trim raw <> [] ->
  List.Forall (fun t => t <> [] /\ noWhiteSpace t = true)
              (splitWhitespace (trim raw)).
Proof.
  intros Hne. apply splitWhitespace_fields; [exact Hne | apply trim_isTrimmed].
Qed.

Lemma splitWhitespace_trimmed_line_example :
  List.Forall (fun t => t <> [] /\ noWhiteSpace t = true)
              (splitWhitespace (trim (u16 " 20  10 B "))).
Proof. apply splitWhitespace_trimmed_line. discriminate. Defined.

(** X3: joining fields with single spaces and splitting again on white
    space gives the fields back. *)
Theorem splitWhitespace_join_roundtrip (ts : list jsstring) :
  ts <> [] ->
  List.Forall (fun t => t <> [] /\ noWhiteSpace t = true) ts ->
  splitWhitespace (join ts) = ts.
Proof. apply split_join. Qed.

Lemma splitWhitespace_join_example :
  splitWhitespace (join [u16 "CRF01"; u16 "AE"]) = [u16 "CRF01"; u16 "AE"].
Proof.
  apply splitWhitespace_join_roundtrip; [discriminate|].
  repeat constructor; discriminate.
Defined.

(** ** One pass of the parser over the lines *)

Section ParserSteps.
Implicit Types (raw text : jsstring) (g : Globals) (rs : list Region).

(** What one line does: nothing to the regions and the registry, or one
    region pushed, coloured by [getColor]. *)
Lemma parseLine_step i raw h rs g h' rs' g' :
  parseLine i raw h rs g = (Normal (h', rs'), g') ->
  (rs' = rs /\ sameRegistry g g')
  \/ exists r,
       rs' = rs ++ [r] /\ h = true /\ h' = true
       /\ trim raw <> [] /\ (3 <= length (fieldsOf raw))%nat
       /\ fromLine raw r
       /\ getColor (subtype r) g = (Normal (color r), g').
Proof.
  parseLine_cases; intros [= <- <- <-];
    try (left; split; [reflexivity | split; reflexivity]); right;
    (eexists; split; [reflexivity|]);
    repeat match goal with
      | H : negb _ = false |- _ => apply negb_false_iff in H; subst
      | H : (_ <? _)%nat = false |- _ => apply Nat.ltb_ge in H
      | H : isEmpty ?x = false |- _ =>
          assert (x <> []) by (intros E; rewrite E in H; discriminate);
          clear H
      end;
    match goal with
    | Ha : parseInt _ = Some ?a, Hb : parseInt _ = Some ?b |- _ =>
        repeat split; try assumption;
        exists a, b; repeat split; try assumption; cbn; lia
    end.
Qed.

(** A property of the loop variables and the globals that every line
    keeps holds when the loop returns. *)
Lemma parseLoop_invariant (P : bool -> list Region -> Globals -> Prop) lines :
  (forall i raw h rs g h' rs' g',
      In raw lines -> P h rs g ->
      parseLine i raw h rs g = (Normal (h', rs'), g') -> P h' rs' g') ->
  forall i h rs g h' rs' g',
    P h rs g ->
    parseLoop lines i h rs g = (Normal (h', rs'), g') ->
    P h' rs' g'.
Proof.
  induction lines as [|raw lines IH]; intros Hstep i h rs g h' rs' g' HP.
  - now intros [= <- <- <-].
  - cbn [parseLoop]. unfold bind at 1.
    destruct (parseLine i raw h rs g) as [[[h1 rs1]|] g1] eqn:Hline;
      [|discriminate].
    apply IH.
    + intros j raw' ? ? ? ? ? ? Hin. apply Hstep. now right.
    + eapply Hstep; [now left | exact HP | exact Hline].
Qed.

(** The same for a property of the globals alone, which then also holds
    where the loop is left by an exception. *)
Lemma parseLoop_globals_invariant (Q : Globals -> Prop) lines :
  (forall i raw h rs g res g',
      In raw lines -> Q g -> parseLine i raw h rs g = (res, g') -> Q g') ->
  forall i h rs g res g',
    Q g -> parseLoop lines i h rs g = (res, g') -> Q g'.
Proof.
  induction lines as [|raw lines IH]; intros Hstep i h rs g res g' HQ.
  - now intros [= <- <-].
  - cbn [parseLoop]. unfold bind at 1.
    destruct (parseLine i raw h rs g) as [[[h1 rs1]|] g1] eqn:Hline.
    + apply IH.
      * intros j raw' ? ? ? ? ? Hin. apply Hstep. now right.
      * eapply Hstep; [now left | exact HQ | exact Hline].
    + intros [= <- <-]. eapply Hstep; [now left | exact HQ | exact Hline].
Qed.

Lemma parseInput_invariant (P : list Region -> Globals -> Prop) text g regions g' :
  (forall g0, sameRegistry g g0 -> P [] g0) ->
  (forall rs g0 g1, sameRegistry g0 g1 -> P rs g0 -> P rs g1) ->
  (forall raw rs r g0 g1,
      In raw (splitLines text) -> P rs g0 ->
      trim raw <> [] -> (3 <= length (fieldsOf raw))%nat -> fromLine raw r ->
      getColor (subtype r) g0 = (Normal (color r), g1) ->
      P (rs ++ [r]) g1) ->
  parseInput text g = (Normal regions, g') ->
  P regions g'.
Proof.
  intros Hinit Hsame Hpush. unfold parseInput.
  destruct (isEmpty (trim text)).
  { intros [= <- <-]. apply Hinit, sameRegistry_refl. }
  unfold bind at 1.
  destruct (parseLoop (splitLines text) 0 false [] g) as [[[h rs]|] g1] eqn:Hloop;
    [|discriminate].
  apply (parseLoop_invariant (fun _ rs g => P rs g)) in Hloop.
  - unfold bind, ret, emitConsole. destruct (negb h); intros [= <- <-].
    + eapply Hsame; [|exact Hloop]. now split.
    + exact Hloop.
  - intros i raw h0 rs0 g0 h1 rs1 g2 Hin HP Hline.
    apply parseLine_step in Hline
      as [[-> Hreg]|(r & -> & _ & _ & Hne & Hlen & Hfrom & Hcol)].
    + eapply Hsame; eassumption.
    + eapply Hpush; eassumption.
  - apply Hinit, sameRegistry_refl.
Qed.
End ParserSteps.

(** ** Labels of the parsed regions *)

Section Labels.
Implicit Types (raw text : jsstring) (g : Globals) (rs : list Region).

Lemma label_fields raw :
  trim raw <> [] -> (3 <= length (fieldsOf raw))%nat ->
  slice 2 (fieldsOf raw) <> [] /\ List.Forall isField (slice 2 (fieldsOf raw)).
Proof.
  intros Hne Hlen. unfold slice, fieldsOf in *. split.
  - intros E. apply (f_equal (@length _)) in E.
    rewrite List.length_skipn in E. cbn in E. lia.
  - pose proof (splitWhitespace_fields (trim raw) Hne (trim_isTrimmed raw)) as H.
    rewrite List.Forall_forall in *. intros t Ht. apply H.
    rewrite <- (List.firstn_skipn 2). apply List.in_or_app. now right.
Qed.

Lemma last_cons_cons {A} (x y : A) l d :
  List.last (x :: y :: l) d = List.last (y :: l) d.
Proof. reflexivity. Qed.

Lemma last_app_cons {A} (l : list A) x r d :
  List.last (l ++ x :: r) d = List.last (x :: r) d.
Proof.
  induction l as [|y l IH]; [reflexivity|].
  cbn [List.app]. destruct (l ++ x :: r) eqn:E.
  - now destruct l.
  - rewrite last_cons_cons. exact IH.
Qed.

Lemma last_field t :
  isField t -> isWhiteSpace (List.last t 32%N) = false.
Proof.
  intros [Hne Hws]. destruct (@List.exists_last _ t Hne) as (l & c & ->).
  rewrite List.last_last. unfold noWhiteSpace in Hws.
  rewrite List.forallb_app in Hws. apply andb_prop in Hws as [_ Hc].
  cbn in Hc. now destruct (isWhiteSpace c).
Qed.

Lemma join_last ts :
  ts <> [] -> List.Forall isField ts ->
  isWhiteSpace (List.last (join ts) 32%N) = false.
Proof.
  induction ts as [|t ts IH]; [congruence|]. intros _ Hall.
  apply List.Forall_cons_iff in Hall as [Ht Hts].
  destruct ts as [|u ts]; [now apply last_field|].
  rewrite join_cons2, last_app_cons.
  pose proof (join_fields_nonempty (u :: ts) ltac:(discriminate) Hts) as Hne.
  destruct (join (u :: ts)) as [|c r] eqn:E; [congruence|].
  rewrite last_cons_cons. apply IH; [discriminate | exact Hts].
Qed.

Lemma join_isTrimmed ts :
  ts <> [] -> List.Forall isField ts -> isTrimmed (join ts).
Proof.
  intros Hne Hall. pose proof (join_last ts Hne Hall) as Hl.
  destruct ts as [|t ts]; [congruence|].
  pose proof Hall as Hall'. apply List.Forall_cons_iff in Hall' as [Ht _].
  destruct (join_head_field t ts Ht) as (c & r & E & Hc).
  rewrite E in *. now split.
Qed.
End Labels.

(** X4: the label of a data line with at least three fields is never
    empty, so the test for an empty label (line 166) never holds. *)
Theorem label_never_empty (raw : jsstring) :
  trim raw <> [] ->
  (3 <= length (splitWhitespace (trim raw)))%nat ->
  isEmpty (join (slice 2 (splitWhitespace (trim raw)))) = false.
Proof.
  intros Hne Hlen. destruct (label_fields raw Hne Hlen) as [H1 H2].
  pose proof (join_fields_nonempty _ H1 H2) as H. unfold fieldsOf in H.
  now destruct (join _).
Qed.

Lemma label_never_empty_example :
  isEmpty (join (slice 2 (splitWhitespace (trim (u16 "20 10 B"))))) = false.
Proof.
  apply label_never_empty; [discriminate | apply Nat.leb_le; reflexivity].
Defined.

(** X5: the label of every parsed region is not empty and is normalized:
    it has no leading or trailing white space, and splitting it on white
    space and joining with single spaces gives it back. *)
Theorem parsed_labels_normalized text g regions g' :
  parseInput text g = (Normal regions, g') ->
  List.Forall
    (fun r => subtype r <> []
              /\ trim (subtype r) = subtype r
              /\ join (splitWhitespace (subtype r)) = subtype r)
    regions.
Proof.
  apply (parseInput_invariant
           (fun rs _ =>
              List.Forall
                (fun r => subtype r <> [] /\ trim (subtype r) = subtype r
                          /\ join (splitWhitespace (subtype r)) = subtype r) rs)).
  - constructor.
  - auto.
  - intros raw rs r g0 g1 _ Hrs Hne Hlen (a & b & _ & _ & _ & _ & Hsub) _.
    apply List.Forall_app. split; [exact Hrs|]. constructor; [|constructor].
    destruct (label_fields raw Hne Hlen) as [H1 H2].
    rewrite Hsub. split; [now apply join_fields_nonempty|].
    split; [now apply isTrimmed_fixed, join_isTrimmed | now rewrite split_join].
Qed.

Lemma parsed_labels_normalized_example :
  List.Forall
    (fun r => subtype r <> []
              /\ trim (subtype r) = subtype r
              /\ join (splitWhitespace (subtype r)) = subtype r)
    [mkRegion 1 9 (u16 "CRF01 AE") "#FF6347"].
Proof.
  apply (parsed_labels_normalized
           (fileOf [">seq1"; " 9   1  CRF01     AE  "]%string) initialGlobals _
           (snd (parseInput (fileOf [">seq1"; " 9   1  CRF01     AE  "]%string)
                            initialGlobals))).
  vm_compute. reflexivity.
Defined.

(** ** The registry across a parse *)

Section RegistryGrowth.
Implicit Types (raw text s : jsstring) (g : Globals) (rs : list Region).

Lemma registryGrows_refl g : registryGrows g g.
Proof. split; auto. Qed.

Lemma registryGrows_trans g1 g2 g3 :
  registryGrows g1 g2 -> registryGrows g2 g3 -> registryGrows g1 g3.
Proof. intros [H1 L1] [H2 L2]. split; [auto | lia]. Qed.

Lemma sameRegistry_grows g g' : sameRegistry g g' -> registryGrows g g'.
Proof. intros [Hm Hi]. split; [now rewrite Hm | now rewrite Hi]. Qed.

(** The three ways [getColor] returns. *)
Lemma getColor_cases s g c g' :
  getColor s g = (Normal c, g') ->
  (DEFAULT_COLORS !! s = Some c /\ g' = g)
  \/ (novel s /\ assignedColors g !! s = Some c /\ g' = g)
  \/ (novel s /\ assignedColors g !! s = None
      /\ assignedColors g !! u16 "hasOwnProperty" = None
      /\ c = fallbackAt (fallbackColorIndex g mod 10)
      /\ g' = mkGlobals (setProperty s c (assignedColors g))
                        (S (fallbackColorIndex g)) (console g)).
Proof.
  unfold getColor, novel.
  destruct (DEFAULT_COLORS !! s) as [d|]; [intros [= <- <-]; now left|].
  intros H. right. revert H. unfold hasOwnProperty.
  destruct (assignedColors g !! u16 "hasOwnProperty"); [discriminate|].
  destruct (assignedColors g !! s) as [a|] eqn:Ha.
  - rewrite bool_decide_eq_true_2 by eauto.
    intros [= <- <-]. now left.
  - rewrite bool_decide_eq_false_2 by (intros [? ?]; discriminate).
    intros [= <- <-]. right. repeat split.
Qed.

Lemma getColor_grows s g res g' :
  getColor s g = (res, g') -> registryGrows g g'.
Proof.
  destruct res as [c|].
  - intros [(_ & ->)|[(_ & _ & ->)|(_ & Hnone & _ & _ & ->)]]%getColor_cases;
      try apply registryGrows_refl.
    split; cbn; [|lia]. intros t d Ht. unfold setProperty.
    destruct (decide _); [exact Ht|].
    rewrite lookup_insert_ne; [exact Ht | congruence].
  - intros [-> _]%getColor_throws. apply registryGrows_refl.
Qed.

Lemma getColor_records s g c g' :
  novel s -> s <> u16 "__proto__" ->
  getColor s g = (Normal c, g') -> assignedColors g' !! s = Some c.
Proof.
  intros Hnovel Hproto
    [(Hd & _)|[(_ & Ha & ->)|(_ & _ & _ & _ & ->)]]%getColor_cases.
  - unfold novel in Hnovel. congruence.
  - exact Ha.
  - cbn. unfold setProperty. rewrite decide_False by exact Hproto.
    apply lookup_insert_eq.
Qed.

(** A line leaves the registry alone or looks up the colour of its label. *)
Lemma parseLine_registry i raw h rs g res g' :
  parseLine i raw h rs g = (res, g') ->
  sameRegistry g g'
  \/ exists c, getColor (labelOf raw) g = (Normal c, g').
Proof.
  unfold labelOf, fieldsOf.
  parseLine_cases; intros [= <- <-];
    try (left; split; reflexivity);
    first [ right; eexists; reflexivity
          | left;
            match goal with
            | H : getColor _ _ = (TypeError, _) |- _ =>
                apply getColor_throws in H as [-> _]; split; reflexivity
            end ].
Qed.

Lemma parseLine_grows i raw h rs g res g' :
  parseLine i raw h rs g = (res, g') -> registryGrows g g'.
Proof.
  intros [H|[c H]]%parseLine_registry;
    [now apply sameRegistry_grows | eapply getColor_grows, H].
Qed.

Lemma parseInput_end_registry text g res g' (Q : Globals -> Prop) :
  Q g ->
  (forall g0 g1, sameRegistry g0 g1 -> Q g0 -> Q g1) ->
  (forall i raw h rs g0 res0 g1,
      In raw (splitLines text) -> Q g0 ->
      parseLine i raw h rs g0 = (res0, g1) -> Q g1) ->
  parseInput text g = (res, g') -> Q g'.
Proof.
  intros HQ Hsame Hstep. unfold parseInput.
  destruct (isEmpty (trim text)); [now intros [= <- <-]|].
  unfold bind at 1.
  destruct (parseLoop (splitLines text) 0 false [] g) as [[[h rs]|] g1] eqn:Hloop;
    apply (parseLoop_globals_invariant Q _ Hstep) in Hloop; try exact HQ.
  - unfold bind, ret, emitConsole. destruct (negb h); intros [= <- <-];
      [|exact Hloop].
    eapply Hsame; [|exact Hloop]. now split.
  - now intros [= <- <-].
Qed.

Lemma parseInput_grows text g res g' :
  parseInput text g = (res, g') -> registryGrows g g'.
Proof.
  apply (parseInput_end_registry text g res g' (registryGrows g)).
  - apply registryGrows_refl.
  - intros g0 g1 Hs H. eapply registryGrows_trans; [exact H|].
    now apply sameRegistry_grows.
  - intros i raw h rs g0 res0 g1 _ H Hline.
    eapply registryGrows_trans; [exact H | eapply parseLine_grows, Hline].
Qed.
End RegistryGrowth.

(** X6: a parse only extends the registry: every label assigned before
    keeps its colour and the fallback cursor never moves back, also when
    the parse ends with an exception. *)
Theorem parseInput_registry_grows text g res g' :
  parseInput text g = (res, g') ->
  (forall s c, assignedColors g !! s = Some c -> assignedColors g' !! s = Some c)
  /\ (fallbackColorIndex g <= fallbackColorIndex g')%nat.
Proof.
  intros Hparse. exact (parseInput_grows text g res g' Hparse).
Qed.

Lemma parseInput_registry_grows_example :
  (fallbackColorIndex initialGlobals
   <= fallbackColorIndex
        (snd (parseInput (fileOf [">seq1"; "1 2 X1"; "3 4 Y1"]%string)
                         initialGlobals)))%nat.
Proof.
  apply (parseInput_registry_grows
           (fileOf [">seq1"; "1 2 X1"; "3 4 Y1"]%string) initialGlobals
           (fst (parseInput (fileOf [">seq1"; "1 2 X1"; "3 4 Y1"]%string)
                            initialGlobals))).
  now destruct (parseInput _ _).
Defined.

Section RegionColours.
Implicit Types (raw text s : jsstring) (g : Globals) (rs : list Region).

Lemma colourKnown_grows g g' r :
  registryGrows g g' -> colourKnown g r -> colourKnown g' r.
Proof. intros [Hg _] [Hd Ha]. split; auto. Qed.

Lemma parseInput_colourKnown text g regions g' :
  parseInput text g = (Normal regions, g') ->
  List.Forall (colourKnown g') regions.
Proof.
  apply (parseInput_invariant (fun rs g0 => List.Forall (colourKnown g0) rs)).
  - constructor.
  - intros rs g0 g1 Hs Hrs. eapply List.Forall_impl; [|exact Hrs].
    intros r. now apply colourKnown_grows, sameRegistry_grows.
  - intros raw rs r g0 g1 _ Hrs _ _ _ Hcol.
    apply List.Forall_app. split.
    + eapply List.Forall_impl; [|exact Hrs].
      intros r0. eapply colourKnown_grows, getColor_grows, Hcol.
    + constructor; [|constructor]. split.
      * intros c Hc. rewrite (getColor_default _ _ g0 Hc) in Hcol. congruence.
      * intros Hnovel Hproto. eapply getColor_records; eassumption.
Qed.
End RegionColours.

(** X7: in the result of one parse, two regions with the same label have
    the same colour, for every label but [__proto__]. *)
Theorem parsed_same_label_same_colour text g regions g' r1 r2 :
  parseInput text g = (Normal regions, g') ->
  In r1 regions -> In r2 regions ->
  subtype r1 = subtype r2 ->
  subtype r1 <> u16 "__proto__" ->
  color r1 = color r2.
Proof.
  intros Hparse H1 H2 Hsame Hproto.
  pose proof (parseInput_colourKnown _ _ _ _ Hparse) as Hall.
  rewrite List.Forall_forall in Hall.
  destruct (Hall r1 H1) as [Hd1 Ha1], (Hall r2 H2) as [Hd2 Ha2].
  destruct (DEFAULT_COLORS !! subtype r1) as [c|] eqn:E.
  - rewrite (Hd1 c eq_refl). symmetry. apply Hd2. now rewrite <- Hsame.
  - assert (Some (color r1) = Some (color r2)) as [= ->]; [|reflexivity].
    rewrite <- Ha1 by assumption. rewrite Hsame.
    apply Ha2; unfold novel; now rewrite <- Hsame.
Qed.

Lemma parsed_same_label_same_colour_example :
  color (mkRegion 1 2 (u16 "X1") "#FF6347")
  = color (mkRegion 5 6 (u16 "X1") "#FF6347").
Proof.
  apply (parsed_same_label_same_colour
           (fileOf [">seq1"; "1 2 X1"; "3 4 Y1"; "5 6 X1"]%string) initialGlobals
           [ mkRegion 1 2 (u16 "X1") "#FF6347";
             mkRegion 3 4 (u16 "Y1") "#20B2AA";
             mkRegion 5 6 (u16 "X1") "#FF6347" ]
           (snd (parseInput
                   (fileOf [">seq1"; "1 2 X1"; "3 4 Y1"; "5 6 X1"]%string)
                   initialGlobals))).
  - vm_compute. reflexivity.
  - left. reflexivity.
  - right. right. left. reflexivity.
  - reflexivity.
  - discriminate.
Defined.

(** X8: a region whose label has a predefined colour gets that colour,
    whatever the registry holds when the parse starts. *)
Theorem parsed_default_colour text g regions g' r c :
  parseInput text g = (Normal regions, g') ->
  In r regions ->
  DEFAULT_COLORS !! subtype r = Some c ->
  color r = c.
Proof.
  intros Hparse Hr Hc.
  pose proof (parseInput_colourKnown _ _ _ _ Hparse) as Hall.
  rewrite List.Forall_forall in Hall. now apply (Hall r Hr).
Qed.

Lemma parsed_default_colour_example :
  color (mkRegion 1 2 (u16 "B") "#3F98F2") = "#3F98F2"%string.
Proof.
  apply (parsed_default_colour
           (fileOf [">seq2"; "1 2 B"]%string)
           (snd (parseInput (fileOf [">seq1"; "1 2 X1"]%string) initialGlobals))
           [mkRegion 1 2 (u16 "B") "#3F98F2"]
           (snd (parseInput (fileOf [">seq2"; "1 2 B"]%string)
                  (snd (parseInput (fileOf [">seq1"; "1 2 X1"]%string)
                                   initialGlobals))))).
  - vm_compute. reflexivity.
  - left. reflexivity.
  - vm_compute. reflexivity.
Defined.

Section Palette.
Implicit Types (raw text s : jsstring) (g : Globals) (rs : list Region).

Lemma fallbackAt_palette k : In (fallbackAt (k mod 10)) FALLBACK_COLORS.
Proof.
  apply List.nth_In. cbn [FALLBACK_COLORS length].
  apply Nat.mod_upper_bound. lia.
Qed.

Lemma getColor_palette s g c g' :
  fromPalette g -> getColor s g = (Normal c, g') ->
  fromPalette g'
  /\ (DEFAULT_COLORS !! s = Some c \/ In c FALLBACK_COLORS).
Proof.
  intros Hg [(Hd & ->)|[(_ & Ha & ->)|(_ & _ & _ & -> & ->)]]%getColor_cases.
  - split; [exact Hg | now left].
  - split; [exact Hg | right; eapply Hg, Ha].
  - split; [|right; apply fallbackAt_palette].
    intros t d. cbn. unfold setProperty. destruct (decide _); [apply Hg|].
    destruct (decide (s = t)) as [->|Hne].
    + rewrite lookup_insert_eq. intros [= <-]. apply fallbackAt_palette.
    + rewrite lookup_insert_ne by exact Hne. apply Hg.
Qed.
End Palette.

(** X9: when every colour assigned so far is a fallback colour (as after
    a reset), every parsed region is coloured with the predefined colour of
    its label or with one of the ten fallback colours. *)
Theorem parsed_colours_defined text g regions g' :
  (forall s c, assignedColors g !! s = Some c -> In c FALLBACK_COLORS) ->
  parseInput text g = (Normal regions, g') ->
  List.Forall
    (fun r => DEFAULT_COLORS !! subtype r = Some (color r)
              \/ In (color r) FALLBACK_COLORS)
    regions.
Proof.
  intros Hg Hparse.
  enough (H : fromPalette g'
              /\ List.Forall
                   (fun r => DEFAULT_COLORS !! subtype r = Some (color r)
                             \/ In (color r) FALLBACK_COLORS) regions)
    by apply H.
  revert Hparse.
  apply (parseInput_invariant
           (fun rs g0 =>
              fromPalette g0
              /\ List.Forall
                   (fun r => DEFAULT_COLORS !! subtype r = Some (color r)
                             \/ In (color r) FALLBACK_COLORS) rs)).
  - intros g0 [Hm _]. split; [|constructor].
    intros s c. rewrite <- Hm. apply Hg.
  - intros rs g0 g1 [Hm _] [Hp Hrs]. split; [|exact Hrs].
    intros s c. rewrite <- Hm. apply Hp.
  - intros raw rs r g0 g1 _ [Hp Hrs] _ _ _ Hcol.
    destruct (getColor_palette _ _ _ _ Hp Hcol) as [Hp' Hc].
    split; [exact Hp'|]. apply List.Forall_app. split; [exact Hrs|].
    constructor; [exact Hc | constructor].
Qed.

Lemma parsed_colours_defined_example :
  List.Forall
    (fun r => DEFAULT_COLORS !! subtype r = Some (color r)
              \/ In (color r) FALLBACK_COLORS)
    [mkRegion 1 2 (u16 "B") "#3F98F2"; mkRegion 3 4 (u16 "X1") "#FF6347"].
Proof.
  apply (parsed_colours_defined
           (fileOf [">seq1"; "1 2 B"; "3 4 X1"]%string) initialGlobals _
           (snd (parseInput (fileOf [">seq1"; "1 2 B"; "3 4 X1"]%string)
                            initialGlobals))).
  - intros s c H. vm_compute in H. discriminate.
  - vm_compute. reflexivity.
Defined.

(** X10: the parse returns normally when the registry holds no entry
    named [hasOwnProperty] and no line carries that label. *)
Theorem parseInput_returns text g :
  assignedColors g !! u16 "hasOwnProperty" = None ->
  (forall raw, In raw (splitLines text) ->
     join (slice 2 (splitWhitespace (trim raw))) <> u16 "hasOwnProperty") ->
  exists regions g', parseInput text g = (Normal regions, g').
Proof.
  intros Hg Hlabels.
  destruct (parseInput text g) as [[regions|] g'] eqn:E; [eauto|].
  exfalso. apply parseInput_throws in E as Hshadow.
  apply (parseInput_end_registry text g _ g'
           (fun g0 => assignedColors g0 !! u16 "hasOwnProperty" = None)) in E.
  - rewrite E in Hshadow. now destruct Hshadow.
  - exact Hg.
  - intros g0 g1 [Hm _]. now rewrite Hm.
  - intros i raw h rs g0 res0 g1 Hin H0 [[Hm _]|[c Hc]]%parseLine_registry.
    + now rewrite <- Hm.
    + apply getColor_cases
        in Hc as [(_ & ->)|[(_ & _ & ->)|(_ & _ & _ & _ & ->)]]; try exact H0.
      cbn. unfold setProperty. destruct (decide _); [exact H0|].
      rewrite lookup_insert_ne; [exact H0 | apply (Hlabels raw Hin)].
Qed.

Lemma parseInput_returns_example :
  exists regions g',
    parseInput (fileOf [">seq1"; "1 2 __proto__"; "x"]%string) initialGlobals
    = (Normal regions, g').
Proof.
  apply parseInput_returns; [reflexivity|].
  intros raw Hin. vm_compute in Hin.
  destruct Hin as [<-|[<-|[<-|[]]]]; discriminate.
Defined.

(** X11: as long as no line carries the label [__proto__], the fallback
    cursor counts the labels of the registry: if it equals their number
    before the parse, it does so after it. *)
Theorem parseInput_cursor_counts text g res g' :
  fallbackColorIndex g = size (assignedColors g) ->
  (forall raw, In raw (splitLines text) ->
     join (slice 2 (splitWhitespace (trim raw))) <> u16 "__proto__") ->
  parseInput text g = (res, g') ->
  fallbackColorIndex g' = size (assignedColors g').
Proof.
  intros Hg Hlabels.
  apply (parseInput_end_registry text g res g'
           (fun g0 => fallbackColorIndex g0 = size (assignedColors g0))).
  - exact Hg.
  - intros g0 g1 [Hm Hi]. now rewrite <- Hm, <- Hi.
  - intros i raw h rs g0 res0 g1 Hin H0 [[Hm Hi]|[c Hc]]%parseLine_registry.
    + now rewrite <- Hm, <- Hi.
    + apply getColor_cases
        in Hc as [(_ & ->)|[(_ & _ & ->)|(_ & Hnone & _ & _ & ->)]];
        try exact H0.
      cbn. unfold setProperty.
      rewrite decide_False by apply (Hlabels raw Hin).
      rewrite map_size_insert_None by exact Hnone. now rewrite H0.
Qed.

Lemma parseInput_cursor_counts_example :
  fallbackColorIndex
    (snd (parseInput (fileOf [">seq1"; "1 2 X1"; "3 4 B"; "5 6 X1"]%string)
                     initialGlobals))
  = size (assignedColors
            (snd (parseInput (fileOf [">seq1"; "1 2 X1"; "3 4 B"; "5 6 X1"]%string)
                             initialGlobals))).
Proof.
  apply (parseInput_cursor_counts
           (fileOf [">seq1"; "1 2 X1"; "3 4 B"; "5 6 X1"]%string) initialGlobals
           (fst (parseInput (fileOf [">seq1"; "1 2 X1"; "3 4 B"; "5 6 X1"]%string)
                            initialGlobals))).
  - reflexivity.
  - intros raw Hin. vm_compute in Hin.
    destruct Hin as [<-|[<-|[<-|[<-|[]]]]]; discriminate.
  - now destruct (parseInput _ _).
Defined.

(** X12: a colour once returned for a label stays: after any growth of
    the registry (more calls, further parses), [getColor] returns the same
    colour for it and changes nothing, unless the registry has come to hold
    an entry named [hasOwnProperty]; the label [__proto__] is excepted. *)
Theorem getColor_stable s g c g1 g2 :
  s <> u16 "__proto__" ->
  getColor s g = (Normal c, g1) ->
  (forall t d, assignedColors g1 !! t = Some d -> assignedColors g2 !! t = Some d) ->
  assignedColors g2 !! u16 "hasOwnProperty" = None ->
  getColor s g2 = (Normal c, g2).
Proof.
  intros Hproto Hcol Hgrow Hshadow.
  destruct (DEFAULT_COLORS !! s) as [d|] eqn:Hd.
  - rewrite (getColor_default _ _ g Hd) in Hcol.
    injection Hcol as <- _. now apply getColor_default.
  - pose proof (getColor_records s g c g1 Hd Hproto Hcol) as Ha.
    apply Hgrow in Ha. unfold getColor, hasOwnProperty.
    rewrite Hd. rewrite Hshadow. rewrite Ha.
    now rewrite bool_decide_eq_true_2 by eauto.
Qed.

Lemma getColor_stable_example :
  getColor (u16 "X1")
    (snd (parseInput (fileOf [">seq2"; "1 2 Y1"]%string)
            (snd (getColor (u16 "X1") initialGlobals))))
  = (Normal "#FF6347"%string,
     snd (parseInput (fileOf [">seq2"; "1 2 Y1"]%string)
            (snd (getColor (u16 "X1") initialGlobals)))).
Proof.
  apply (getColor_stable (u16 "X1") initialGlobals "#FF6347"
           (snd (getColor (u16 "X1") initialGlobals))).
  - discriminate.
  - vm_compute. reflexivity.
  - apply (parseInput_grows
             (fileOf [">seq2"; "1 2 Y1"]%string)
             (snd (getColor (u16 "X1") initialGlobals))
             (fst (parseInput (fileOf [">seq2"; "1 2 Y1"]%string)
                     (snd (getColor (u16 "X1") initialGlobals))))).
    now destruct (parseInput _ _).
  - vm_compute. reflexivity.
Defined.

(** X13: labels seen for the first time, all different, none predefined
    and none of the two special names, take the fallback colours in turn
    from the cursor on, wrapping after the tenth. *)
Theorem getColor_fallback_in_turn labels g :
  List.NoDup labels ->
  List.Forall (fun s => DEFAULT_COLORS !! s = None
                        /\ s <> u16 "__proto__" /\ s <> u16 "hasOwnProperty"
                        /\ assignedColors g !! s = None) labels ->
  assignedColors g !! u16 "hasOwnProperty" = None ->
  fst (getColors labels g)
  = List.map (fun j => Normal (nth ((fallbackColorIndex g + j) mod 10)
                                   FALLBACK_COLORS EmptyString))
             (List.seq 0 (length labels)).
Proof.
  intros Hnd Hall Hshadow. apply getColors_distinct; try assumption.
  eapply List.Forall_impl; [|exact Hall].
  intros s (H1 & H2 & H3 & H4). repeat split; assumption.
Qed.

Lemma getColor_fallback_in_turn_example :
  fst (getColors [u16 "X1"; u16 "X2"; u16 "X3"] initialGlobals)
  = List.map (fun j => Normal (nth ((0 + j) mod 10) FALLBACK_COLORS EmptyString))
             (List.seq 0 3).
Proof.
  apply (getColor_fallback_in_turn [u16 "X1"; u16 "X2"; u16 "X3"] initialGlobals).
  - repeat constructor; cbn; intros H;
      repeat (destruct H as [H|H]; [discriminate|]); exact H.
  - repeat constructor; try discriminate; vm_compute; reflexivity.
  - reflexivity.
Defined.

(** ** What the parser prints *)

Section ParserConsole.
Implicit Types (raw text s : jsstring) (g : Globals) (rs : list Region).

Lemma parseLine_events i raw h rs g res g' :
  parseLine i raw h rs g = (res, g') ->
  exists ev,
    console g' = console g ++ ev
    /\ (isHeaderLine raw = true -> ev = [LogHeader (trim raw)])
    /\ (isHeaderLine raw = false ->
        ev = []
        \/ (ev = [WarnInvalidLine (i + 1) (trim raw)]
            /\ trim raw <> []
            /\ (length (splitWhitespace (trim raw)) < 3)%nat)).
Proof.
  destruct (isHeaderLine raw) eqn:Hh.
  - destruct (header_not_comment raw Hh) as [He Hc].
    unfold isHeaderLine in Hh. unfold parseLine. rewrite He, Hc, Hh.
    cbn. intros [= <- <-]. eexists. split; [reflexivity|].
    split; [reflexivity | discriminate].
  - unfold isHeaderLine in Hh. revert Hh.
    parseLine_cases; intros Hh [= <- <-]; try discriminate;
      cbn [console];
      first
        [ exists []; rewrite List.app_nil_r;
          split; [first [reflexivity | eapply getColor_console; eassumption]|];
          split; [discriminate | now left]
        | eexists; split; [reflexivity|];
          split; [discriminate|]; intros _; right;
          repeat split;
          [ intros E;
            match goal with H : isEmpty _ = false |- _ =>
              rewrite E in H; discriminate end
          | now apply Nat.ltb_lt ] ].
Qed.

Lemma splitLines_forallb (p : N -> bool) s :
  forallb p s = true ->
  List.Forall (fun l => forallb p l = true) (splitLines s).
Proof.
  induction s as [|c s IH]; [repeat constructor|].
  cbn. intros [Hc Hs]%andb_prop. specialize (IH Hs).
  destruct (c =? 10)%N; [now constructor|].
  destruct (splitLines s) as [|l ls]; [repeat constructor; cbn; now rewrite Hc|].
  apply List.Forall_cons_iff in IH as [Hl Hls].
  constructor; [cbn; now rewrite Hc | exact Hls].
Qed.

Lemma blank_text_no_header text :
  trim text = [] -> List.filter isHeaderLine (splitLines text) = [].
Proof.
  intros Hblank%trim_nil_iff%splitLines_forallb.
  induction Hblank as [|l ls Hl _ IH]; [reflexivity|].
  cbn. unfold isHeaderLine at 1.
  apply trim_nil_iff in Hl. now rewrite Hl.
Qed.

(** The loop from line [length pre] on. *)
Lemma parseLoop_events lines : forall pre h rs g res g',
  parseLoop lines (length pre) h rs g = (res, g') ->
  exists new,
    console g' = console g ++ new
    /\ (forall n l, In (WarnInvalidLine n l) new ->
          exists raw, nth_error (pre ++ lines) (n - 1) = Some raw
                      /\ (length pre < n)%nat /\ l = trim raw /\ l <> []
                      /\ (length (splitWhitespace l) < 3)%nat)
    /\ (forall x, res = Normal x ->
          List.filter isLogHeader new
          = List.map (fun raw => LogHeader (trim raw))
                     (List.filter isHeaderLine lines)).
Proof.
  induction lines as [|raw lines IH]; intros pre h rs g res g'.
  - intros [= <- <-]. exists []. rewrite List.app_nil_r.
    split; [reflexivity|]. split; [intros n l [] | reflexivity].
  - cbn [parseLoop]. unfold bind at 1.
    destruct (parseLine (length pre) raw h rs g) as [[[h1 rs1]|] g1] eqn:Hline;
      apply parseLine_events in Hline as (ev & Hev & Hhead & Hwarn).
    + replace (S (length pre)) with (length (pre ++ [raw]))
        by (rewrite List.length_app; simpl; lia).
      intros (new & Hnew & Hw & Hl)%IH.
      rewrite <- List.app_assoc in Hw. cbn [List.app] in Hw.
      rewrite List.length_app in Hw. cbn [length] in Hw.
      exists (ev ++ new). rewrite Hnew, Hev, List.app_assoc.
      split; [reflexivity|]. split.
      * intros n l [Hin|Hin]%List.in_app_or.
        -- destruct (isHeaderLine raw) eqn:Hh.
           { rewrite (Hhead eq_refl) in Hin. destruct Hin as [?|[]]. discriminate. }
           destruct (Hwarn eq_refl) as [->|(-> & Hne & Hlen)]; [destruct Hin|].
           destruct Hin as [[= <- <-]|[]].
           exists raw. replace (length pre + 1 - 1)%nat with (length pre) by lia.
           rewrite List.nth_error_app2 by lia. rewrite Nat.sub_diag.
           repeat split; [lia | assumption..].
        -- destruct (Hw n l Hin) as (raw' & H1 & H2 & H3).
           exists raw'. repeat split; [exact H1 | lia | apply H3..].
      * intros x Hx. rewrite List.filter_app, (Hl x Hx). cbn [List.filter].
        destruct (isHeaderLine raw) eqn:Hh.
        -- now rewrite (Hhead eq_refl).
        -- destruct (Hwarn eq_refl) as [->|(-> & _)]; reflexivity.
    + intros [= <- <-]. exists ev. split; [exact Hev|].
      split; [|discriminate].
      intros n l Hin. destruct (isHeaderLine raw) eqn:Hh.
      { rewrite (Hhead eq_refl) in Hin. destruct Hin as [?|[]]. discriminate. }
      destruct (Hwarn eq_refl) as [->|(-> & Hne & Hlen)]; [destruct Hin|].
      destruct Hin as [[= <- <-]|[]].
      exists raw. replace (length pre + 1 - 1)%nat with (length pre) by lia.
      rewrite List.nth_error_app2 by lia. rewrite Nat.sub_diag.
      repeat split; [lia | assumption..].
Qed.
End ParserConsole.

(** X14: a parse that returns has logged every header line, trimmed, once
    and in file order; every warning about an invalid line names a line of
    the text by its 1-based number and quotes it trimmed, and that line is
    not blank and has fewer than three fields. *)
Theorem parseInput_console text g regions g' :
  parseInput text g = (Normal regions, g') ->
  exists new,
    console g' = console g ++ new
    /\ List.filter isLogHeader new
       = List.map (fun raw => LogHeader (trim raw))
                  (List.filter (fun raw => startsWith (trim raw) 62)
                               (splitLines text))
    /\ forall n l,
         In (WarnInvalidLine n l) new ->
         exists raw,
           nth_error (splitLines text) (n - 1) = Some raw
           /\ (1 <= n)%nat /\ l = trim raw /\ l <> []
           /\ (length (splitWhitespace l) < 3)%nat.
Proof.
  unfold parseInput. destruct (isEmpty (trim text)) eqn:Hblank.
  { intros [= <- <-]. exists []. rewrite List.app_nil_r.
    split; [reflexivity|]. split; [|intros n l []].
    symmetry. fold isHeaderLine.
    rewrite (blank_text_no_header text); [reflexivity|].
    now destruct (trim text). }
  unfold bind at 1.
  destruct (parseLoop (splitLines text) 0 false [] g) as [[[h rs]|] g1] eqn:Hloop;
    [|discriminate].
  apply (parseLoop_events _ []) in Hloop as (new & Hnew & Hw & Hl).
  cbn [List.app length] in *. specialize (Hl _ eq_refl).
  unfold bind, ret, emitConsole. destruct (negb h); intros [= <- <-].
  - exists (new ++ [WarnNoHeader]). cbn [console].
    rewrite Hnew, List.app_assoc. split; [reflexivity|].
    split; [rewrite List.filter_app, Hl; cbn; now rewrite List.app_nil_r|].
    intros n l [Hin|[?|[]]]%List.in_app_or; [|discriminate].
    destruct (Hw n l Hin) as (raw & H1 & H2 & H3). exists raw.
    repeat split; [exact H1 | lia | apply H3..].
  - exists new. split; [exact Hnew|]. split; [exact Hl|].
    intros n l Hin.
    destruct (Hw n l Hin) as (raw & H1 & H2 & H3). exists raw.
    repeat split; [exact H1 | lia | apply H3..].
Qed.

Lemma parseInput_console_example :
  exists new,
    console (snd (parseInput (fileOf [" >seq1"; "1 2"; "3 4 B"]%string)
                             initialGlobals))
    = console initialGlobals ++ new
    /\ List.filter isLogHeader new
       = List.map (fun raw => LogHeader (trim raw))
                  (List.filter (fun raw => startsWith (trim raw) 62)
                               (splitLines (fileOf [" >seq1"; "1 2"; "3 4 B"]%string)))
    /\ forall n l,
         In (WarnInvalidLine n l) new ->
         exists raw,
           nth_error (splitLines (fileOf [" >seq1"; "1 2"; "3 4 B"]%string)) (n - 1)
           = Some raw
           /\ (1 <= n)%nat /\ l = trim raw /\ l <> []
           /\ (length (splitWhitespace l) < 3)%nat.
Proof.
  apply (parseInput_console _ initialGlobals
           [mkRegion 3 4 (u16 "B") "#3F98F2"]).
  vm_compute. reflexivity.
Defined.

(** ** The regions returned, line by line *)

Section Rows.
Implicit Types (raw text s : jsstring) (g : Globals) (rs : list Region).

Lemma rowOf_header raw : isHeaderLine raw = true -> rowOf raw = None.
Proof.
  intros Hh. unfold rowOf. unfold isHeaderLine in Hh. rewrite Hh.
  destruct (isEmpty (trim raw)); [reflexivity|].
  now destruct (startsWith (trim raw) 35).
Qed.

(** One line: the flag, and the row pushed if the header has been seen. *)
Lemma parseLine_row i raw h rs g h' rs' g' :
  parseLine i raw h rs g = (Normal (h', rs'), g') ->
  List.map rowOfRegion rs'
  = List.map rowOfRegion rs
    ++ (if h then match rowOf raw with Some row => [row] | None => [] end
        else []).
Proof.
  intros Hline.
  assert (Hlabel :
            trim raw <> [] ->
            (3 <= length (splitWhitespace (trim raw)))%nat ->
            isEmpty (join (slice 2 (splitWhitespace (trim raw)))) = false).
  { intros Hne Hlen. destruct (label_fields raw Hne Hlen) as [H1 H2].
    pose proof (join_fields_nonempty _ H1 H2) as H. unfold fieldsOf in H.
    now destruct (join _). }
  revert Hline. unfold rowOf.
  parseLine_cases; intros [= <- <- <-];
    destruct h; try discriminate;
    rewrite ?List.app_nil_r; try reflexivity.
  - exfalso. enough (true = false) by discriminate. apply Hlabel.
    + intros E. rewrite E in *. discriminate.
    + now apply Nat.ltb_ge.
  - rewrite List.map_app.
    replace (Z.min z z0) with z0 by lia. replace (Z.max z z0) with z by lia.
    reflexivity.
  - rewrite List.map_app.
    replace (Z.min z z0) with z by lia. replace (Z.max z z0) with z0 by lia.
    reflexivity.
Qed.

Lemma parseLoop_rows lines : forall i h rs g h' rs' g',
  parseLoop lines i h rs g = (Normal (h', rs'), g') ->
  List.map rowOfRegion rs'
  = List.map rowOfRegion rs
    ++ omap rowOf (if h then lines else afterFirstHeader lines).
Proof.
  induction lines as [|raw lines IH]; intros i h rs g h' rs' g'.
  - intros [= <- <- <-]. destruct h; cbn; now rewrite List.app_nil_r.
  - cbn [parseLoop]. unfold bind at 1.
    destruct (parseLine i raw h rs g) as [[[h1 rs1]|] g1] eqn:Hline;
      [|discriminate].
    pose proof (parseLine_flag _ _ _ _ _ _ _ _ Hline) as ->.
    apply parseLine_row in Hline. intros Hrest%IH.
    rewrite Hrest, Hline, <- List.app_assoc. f_equal.
    destruct h; cbn [orb afterFirstHeader].
    + change (omap rowOf (raw :: lines))
        with (match rowOf raw with
              | Some row => row :: omap rowOf lines
              | None => omap rowOf lines
              end).
      now destruct (rowOf raw).
    + cbn [List.app]. now destruct (isHeaderLine raw).
Qed.

Lemma afterFirstHeader_none lines :
  List.filter isHeaderLine lines = [] -> afterFirstHeader lines = [].
Proof.
  induction lines as [|raw lines IH]; [reflexivity|]. cbn.
  destruct (isHeaderLine raw); [discriminate | exact IH].
Qed.

Lemma parseInput_rowOfRegion text g rs g' :
  parseInput text g = (Normal rs, g') ->
  List.map rowOfRegion rs = omap rowOf (afterFirstHeader (splitLines text)).
Proof.
  unfold parseInput. destruct (isEmpty (trim text)) eqn:Hblank.
  { intros [= <- <-].
    rewrite afterFirstHeader_none; [reflexivity|].
    apply blank_text_no_header. now destruct (trim text). }
  unfold bind at 1.
  destruct (parseLoop (splitLines text) 0 false [] g) as [[[h rs0]|] g1] eqn:Hloop;
    [|discriminate].
  apply parseLoop_rows in Hloop. cbn [List.map List.app] in Hloop.
  unfold bind, ret, emitConsole. destruct (negb h); intros [= <- <-]; exact Hloop.
Qed.
End Rows.

(** X15: the parser returns exactly one region per data line that
    follows the first header line, in file order, with start the smaller
    and end the larger of the two integers and the label rejoined: lines
    before the first header, blank lines, comments, further headers, short
    lines and lines without two integers contribute nothing. *)
Theorem parseInput_rows text g regions g' :
  parseInput text g = (Normal regions, g') ->
  List.map (fun r => (start r, end_ r, subtype r)) regions
  = omap rowOf (afterFirstHeader (splitLines text)).
Proof.
  intros Hparse. exact (parseInput_rowOfRegion text g regions g' Hparse).
Qed.

Lemma parseInput_rows_example :
  List.map (fun r => (start r, end_ r, subtype r))
           [mkRegion 10 20 (u16 "B") "#3F98F2"]
  = omap rowOf
      (afterFirstHeader
         (splitLines (fileOf ["1 2 A"; ">seq1"; "# c"; "20 10 B"; "x y z"]%string))).
Proof.
  apply (parseInput_rows _ initialGlobals _
           (snd (parseInput
                   (fileOf ["1 2 A"; ">seq1"; "# c"; "20 10 B"; "x y z"]%string)
                   initialGlobals))).
  vm_compute. reflexivity.
Defined.

(** ** Breakpoints and the order of the regions *)

Section SortUnique.
Local Open Scope Z_scope.

Lemma sorted_head_min (x : Region) l y :
  StronglySorted byStart (x :: l) -> In y (x :: l) -> start x <= start y.
Proof.
  intros Hs [<-|Hy]; [lia|].
  apply StronglySorted_inv in Hs as [_ Hall].
  rewrite List.Forall_forall in Hall. now apply Hall.
Qed.

(** Two sorted arrangements of regions with pairwise different starts
    are the same. *)
Lemma sorted_unique (l1 : list Region) : forall l2,
  StronglySorted byStart l1 -> StronglySorted byStart l2 ->
  Permutation l1 l2 -> List.NoDup (List.map start l1) -> l1 = l2.
Proof.
  induction l1 as [|x l1 IH]; intros l2 H1 H2 Hp Hnd.
  - now apply Permutation_nil in Hp.
  - destruct l2 as [|y l2].
    { apply Permutation_sym, Permutation_nil in Hp. discriminate. }
    assert (Hxy : x = y).
    { pose proof (sorted_head_min y l2 x H2
                    (Permutation_in _ Hp (or_introl eq_refl))) as Hyx.
      pose proof (Permutation_in _ (Permutation_sym Hp) (or_introl eq_refl))
        as [E|Hy]; [exact E|].
      pose proof (sorted_head_min x l1 y H1 (or_intror Hy)) as Hxy.
      cbn in Hnd. apply List.NoDup_cons_iff in Hnd as [Hx _].
      exfalso. apply Hx. replace (start x) with (start y) by lia.
      now apply List.in_map. }
    subst y. f_equal.
    apply StronglySorted_inv in H1 as [H1 _].
    apply StronglySorted_inv in H2 as [H2 _].
    cbn in Hnd. apply List.NoDup_cons_iff in Hnd as [_ Hnd].
    apply IH; try assumption. eapply Permutation_cons_inv, Hp.
Qed.
End SortUnique.

(** X16: when the regions start at pairwise different positions, the
    breakpoints do not depend on the order of the regions in the file. *)
Theorem breakpoints_order_independent (regions regions' : list Region) :
  Permutation regions regions' ->
  List.NoDup (List.map start regions) ->
  calculateBreakpoints regions = calculateBreakpoints regions'.
Proof.
  intros Hp Hnd. rewrite !calculateBreakpoints_marks. f_equal.
  apply sorted_unique; try apply sortByStart_sorted.
  - rewrite <- (sortByStart_perm regions), <- (sortByStart_perm regions').
    exact Hp.
  - eapply Permutation_NoDup; [|exact Hnd].
    apply Permutation_map, sortByStart_perm.
Qed.

Lemma breakpoints_order_independent_example :
  calculateBreakpoints exampleRegions = calculateBreakpoints (rev exampleRegions).
Proof.
  apply breakpoints_order_independent.
  - apply Permutation_rev.
  - repeat constructor; cbn; intros H;
      repeat (destruct H as [H|H]; [discriminate|]); exact H.
Defined.

(** ** The scale keeps the order and the range *)

Section ScaleOrder.
Local Open Scope Q_scope.



End ScaleOrder.





(** ** A census of the calls of a drawing *)

Section Census.
Variable p : CtxCall -> bool.

Lemma countCalls_app a b : countCalls p (a ++ b) = (countCalls p a + countCalls p b)%nat.
Proof. unfold countCalls. now rewrite List.filter_app, List.length_app. Qed.

Lemma Counts_emit_no c : p c = false -> Counts p (emit c) 0.
Proof.
  intros H. exists [c]. split; [apply WriteOnly_emit|].
  unfold countCalls. cbn. now rewrite H.
Qed.

Lemma Counts_emit_yes c : p c = true -> Counts p (emit c) 1.
Proof.
  intros H. exists [c]. split; [apply WriteOnly_emit|].
  unfold countCalls. cbn. now rewrite H.
Qed.

Lemma Counts_skip : Counts p skip 0.
Proof. exists []. split; [apply WriteOnly_skip | reflexivity]. Qed.

Lemma Counts_andThen f g a b :
  Counts p f a -> Counts p g b -> Counts p (andThen f g) (a + b).
Proof.
  intros (x & Hx & <-) (y & Hy & <-). exists (x ++ y).
  split; [now apply WriteOnly_andThen | apply countCalls_app].
Qed.

Lemma Counts_if_same (c : bool) f g k :
  Counts p f k -> Counts p g k -> Counts p (if c then f else g) k.
Proof. now destruct c. Qed.

Lemma Counts_forEach {A} (xs : list A) body k :
  (forall x, Counts p (body x) k) ->
  Counts p (forEach xs body) (k * length xs).
Proof.
  intros Hbody. induction xs as [|x xs (ops & Hops & Hn)].
  - exists []. split; [|now rewrite Nat.mul_0_r].
    intros ctx. apply eq_sym, issue_nil.
  - destruct (Hbody x) as (a & Ha & <-). exists (a ++ ops). split.
    + intros ctx. unfold forEach in *. cbn [fold_left].
      now rewrite Ha, Hops, issue_issue.
    + rewrite countCalls_app, Hn. cbn [length]. lia.
Qed.

Lemma Counts_forEachFrom {A} (xs : list A) body k : forall i,
  (forall x j, Counts p (body x j) k) ->
  Counts p (forEachFrom i xs body) (k * length xs).
Proof.
  induction xs as [|x xs IH]; intros i Hbody; cbn [forEachFrom length].
  - rewrite Nat.mul_0_r. apply Counts_skip.
  - replace (k * S (length xs))%nat with (k + k * length xs)%nat by lia.
    apply Counts_andThen; [apply Hbody | now apply IH].
Qed.

Lemma Counts_eq f n m : Counts p f n -> n = m -> Counts p f m.
Proof. now intros H <-. Qed.

Lemma Counts_calls f n ctx :
  Counts p f n -> countCalls p (calls (f ctx)) = (countCalls p (calls ctx) + n)%nat.
Proof.
  intros (ops & Hops & <-). now rewrite Hops, calls_issue, countCalls_app.
Qed.
End Census.

(** Syntax-directed counting of the calls of a drawing step. *)
Ltac counts :=
  repeat match goal with
    | |- Counts _ (andThen _ _) _ => eapply Counts_andThen
    | |- Counts _ (emit _) _ =>
        first [ apply Counts_emit_no; reflexivity
              | apply Counts_emit_yes; reflexivity ]
    | |- Counts _ skip _ => apply Counts_skip
    | |- Counts _ (if _ then _ else _) _ => apply Counts_if_same
    | |- Counts _ (forEach _ _) _ => eapply Counts_forEach; intros ?
    | |- Counts _ (forEachIndexed _ _) _ =>
        eapply Counts_forEachFrom; intros ? ?
    | |- Counts _ (drawGene _) _ => unfold drawGene; cbv zeta
    | |- Counts _ (drawOverlays _ _) _ => unfold drawOverlays
    | |- Counts _ (drawOverlay _ _) _ => unfold drawOverlay; cbv zeta
    | |- Counts _ drawGeneNames _ => unfold drawGeneNames
    | |- Counts _ (drawGeneName _) _ => unfold drawGeneName; cbv zeta
    | |- Counts _ drawConnectors _ => unfold drawConnectors; cbv zeta
    | |- Counts _ (drawBreakpoints _) _ => unfold drawBreakpoints; cbv zeta
    | |- Counts _ (drawBreakpoint _ _ _ _) _ => unfold drawBreakpoint; cbv zeta
    | |- Counts _ drawAxis _ => unfold drawAxis; cbv zeta
    | |- Counts _ (drawAxisTick _ _) _ => unfold drawAxisTick; cbv zeta
    | |- Counts _ (drawLegend _) _ => unfold drawLegend; cbv zeta
    | |- Counts _ (drawLegendItem _ _ _) _ => unfold drawLegendItem; cbv zeta
    end.

Section CensusOfDrawing.
Variables (w h : Q) (regions : list Region).

Lemma drawToContext_whole ctx :
  drawToContext ctx w h regions = wholeDrawing w h regions ctx.
Proof. reflexivity. Qed.

Lemma names_count :
  length (List.filter (fun d => negb (name d =? EmptyString)%string) GENE_MAP)
  = 9%nat.
Proof. vm_compute. reflexivity. Qed.

Lemma count_save :
  Counts isSave (wholeDrawing w h regions) (length (calculateBreakpoints regions)).
Proof.
  eapply Counts_eq; [unfold wholeDrawing; counts|].
  rewrite ?names_count. cbn [length GENE_MAP]. lia.
Qed.

Lemma count_restore :
  Counts isRestore (wholeDrawing w h regions) (length (calculateBreakpoints regions)).
Proof.
  eapply Counts_eq; [unfold wholeDrawing; counts|].
  rewrite ?names_count. cbn [length GENE_MAP]. lia.
Qed.

Lemma count_beginPath :
  Counts isBeginPath (wholeDrawing w h regions) (14 + length (calculateBreakpoints regions)).
Proof.
  eapply Counts_eq; [unfold wholeDrawing; counts|].
  rewrite ?names_count. cbn [length GENE_MAP]. lia.
Qed.

Lemma count_stroke :
  Counts isStroke (wholeDrawing w h regions) (14 + length (calculateBreakpoints regions)).
Proof.
  eapply Counts_eq; [unfold wholeDrawing; counts|].
  rewrite ?names_count. cbn [length GENE_MAP]. lia.
Qed.

Lemma count_fillText :
  Counts isFillText (wholeDrawing w h regions)
    (22 + length (calculateBreakpoints regions) + length (legendData regions)).
Proof.
  eapply Counts_eq; [unfold wholeDrawing; counts|].
  rewrite ?names_count. cbn [length GENE_MAP]. lia.
Qed.
End CensusOfDrawing.

Section CensusOfRectangles.
Variables (w h : Q) (regions : list Region).

Lemma count_overlays genes rs :
  Counts isFillRect (drawOverlays genes rs)
    (length (flat_map (fun region => List.filter (strictOverlap region) genes) rs)).
Proof.
  exists (overlayPassCalls genes rs). split; [apply drawOverlays_calls|].
  unfold countCalls, overlayPassCalls.
  induction rs as [|r rs IH]; [reflexivity|].
  cbn [flat_map]. rewrite List.filter_app, !List.length_app, IH.
  now rewrite count_fillRect_overlays.
Qed.

Lemma count_fillRect :
  Counts isFillRect (wholeDrawing w h regions)
    (14 + overlapCount regions + length (legendData regions)).
Proof.
  unfold wholeDrawing. eapply Counts_eq.
  - eapply Counts_andThen; [counts|].
    eapply Counts_andThen; [counts|].
    eapply Counts_andThen; [counts|].
    eapply Counts_andThen; [apply count_overlays | counts].
  - unfold overlapCount. rewrite ?names_count. cbn [length GENE_MAP]. lia.
Qed.
End CensusOfRectangles.

(** X19: the calls of one drawing, counted.  With n breakpoints there are
    n [save] and n [restore] calls, 14 + n paths begun and as many stroked,
    22 + n texts plus one per legend entry, and 14 filled rectangles plus
    one per overlapping (region, gene) pair and one per legend entry; n is
    0 without regions and one more than their number otherwise. *)
Theorem drawing_census (w h : Q) (regions : list Region) (kind : SurfaceKind) :
  let ops := calls (drawToContext (createContext w h kind) w h regions) in
  let n := length (calculateBreakpoints regions) in
  countCalls isSave ops = n
  /\ countCalls isRestore ops = n
  /\ countCalls isBeginPath ops = (14 + n)%nat
  /\ countCalls isStroke ops = (14 + n)%nat
  /\ countCalls isFillText ops = (22 + n + length (legendData regions))%nat
  /\ countCalls isFillRect ops
     = (14 + overlapCount regions + length (legendData regions))%nat
  /\ n = match regions with [] => 0%nat | _ :: _ => S (length regions) end.
Proof.
  cbn zeta. rewrite drawToContext_whole.
  rewrite (Counts_calls _ _ _ _ (count_save w h regions)).
  rewrite (Counts_calls _ _ _ _ (count_restore w h regions)).
  rewrite (Counts_calls _ _ _ _ (count_beginPath w h regions)).
  rewrite (Counts_calls _ _ _ _ (count_stroke w h regions)).
  rewrite (Counts_calls _ _ _ _ (count_fillText w h regions)).
  rewrite (Counts_calls _ _ _ _ (count_fillRect w h regions)).
  repeat split; try reflexivity.
  destruct regions as [|r rs]; [reflexivity|].
  rewrite calculateBreakpoints_marks, marksFrom_length.
  - now rewrite sortByStart_length.
  - intros E. apply (f_equal (@length _)) in E.
    rewrite sortByStart_length in E. discriminate.
Qed.

(** ** The discipline of the calls *)

Section Discipline.
Lemma runSurface_app s a b :
  runSurface s (a ++ b)
  = match runSurface s a with Some s' => runSurface s' b | None => None end.
Proof.
  revert s. induction a as [|c a IH]; intros s; [reflexivity|].
  cbn. destruct (stepSurface s c); [apply IH | reflexivity].
Qed.

Lemma Runs_emit s c s' : stepSurface s c = Some s' -> Runs s (emit c) s'.
Proof.
  intros H. exists [c]. split; [apply WriteOnly_emit|]. cbn. now rewrite H.
Qed.

Lemma Runs_skip s : Runs s skip s.
Proof. exists []. split; [apply WriteOnly_skip | reflexivity]. Qed.

Lemma Runs_andThen s f g s1 s2 :
  Runs s f s1 -> Runs s1 g s2 -> Runs s (andThen f g) s2.
Proof.
  intros (a & Ha & Ra) (b & Hb & Rb). exists (a ++ b).
  split; [now apply WriteOnly_andThen|]. now rewrite runSurface_app, Ra.
Qed.

Lemma Runs_if (c : bool) s f g s' :
  Runs s f s' -> Runs s g s' -> Runs s (if c then f else g) s'.
Proof. now destruct c. Qed.

Lemma Runs_forEach {A} (xs : list A) body s :
  (forall x, Runs s (body x) s) -> Runs s (forEach xs body) s.
Proof.
  intros Hbody. induction xs as [|x xs (ops & Hops & Hr)].
  - exists []. split; [|reflexivity]. intros ctx. apply eq_sym, issue_nil.
  - destruct (Hbody x) as (a & Ha & Ra). exists (a ++ ops). split.
    + intros ctx. unfold forEach in *. cbn [fold_left].
      now rewrite Ha, Hops, issue_issue.
    + now rewrite runSurface_app, Ra.
Qed.

Lemma Runs_forEachFrom {A} (xs : list A) body s : forall i,
  (forall x j, Runs s (body x j) s) -> Runs s (forEachFrom i xs body) s.
Proof.
  induction xs as [|x xs IH]; intros i Hbody; cbn [forEachFrom].
  - apply Runs_skip.
  - eapply Runs_andThen; [apply Hbody | now apply IH].
Qed.
End Discipline.

(** Syntax-directed replay of a drawing step. *)
Ltac runs :=
  repeat match goal with
    | |- Runs _ (andThen _ _) _ => eapply Runs_andThen
    | |- Runs _ (emit _) _ => apply Runs_emit; reflexivity
    | |- Runs _ skip _ => apply Runs_skip
    | |- Runs _ (if _ then _ else _) _ => apply Runs_if
    | |- Runs _ (forEach _ _) _ => eapply Runs_forEach; intros ?
    | |- Runs _ (forEachIndexed _ _) _ => eapply Runs_forEachFrom; intros ? ?
    | |- Runs _ (drawGene _) _ => unfold drawGene; cbv zeta
    | |- Runs _ (drawOverlays _ _) _ => unfold drawOverlays
    | |- Runs _ (drawOverlay _ _) _ => unfold drawOverlay; cbv zeta
    | |- Runs _ drawGeneNames _ => unfold drawGeneNames
    | |- Runs _ (drawGeneName _) _ => unfold drawGeneName; cbv zeta
    | |- Runs _ drawConnectors _ => unfold drawConnectors; cbv zeta
    | |- Runs _ (drawBreakpoints _) _ => unfold drawBreakpoints; cbv zeta
    | |- Runs _ (drawBreakpoint _ _ _ _) _ => unfold drawBreakpoint; cbv zeta
    | |- Runs _ drawAxis _ => unfold drawAxis; cbv zeta
    | |- Runs _ (drawAxisTick _ _) _ => unfold drawAxisTick; cbv zeta
    | |- Runs _ (drawLegend _) _ => unfold drawLegend; cbv zeta
    | |- Runs _ (drawLegendItem _ _ _) _ => unfold drawLegendItem; cbv zeta
    end.

Lemma wholeDrawing_runs w h regions :
  Runs neutral (wholeDrawing w h regions) neutral.
Proof. unfold wholeDrawing. runs. Qed.

(** X20: on a fresh context the calls of a drawing keep a discipline:
    every [moveTo], [lineTo] and [stroke] comes after a [beginPath] that has
    not been stroked yet, every [restore] has its [save], every text and
    every outline is drawn at full opacity, and at the end nothing is
    saved, no path is open and the opacity is full again. *)
Theorem drawing_discipline (w h : Q) (regions : list Region) (kind : SurfaceKind) :
  runSurface neutral (calls (drawToContext (createContext w h kind) w h regions))
  = Some neutral.
Proof.
  rewrite drawToContext_whole.
  destruct (wholeDrawing_runs w h regions) as (ops & Hops & Hrun).
  now rewrite Hops.
Qed.

Lemma discipline_rejects :
  runSurface neutral [MoveTo 0 0] = None
  /\ runSurface neutral [BeginPath; Stroke; Stroke] = None
  /\ runSurface neutral [Restore] = None
  /\ runSurface neutral [SetGlobalAlpha 0.8; FillText [] 0 0] = None.
Proof. repeat split. Qed.

(** ** The main program and the script *)

Section MainOutcome.
Implicit Types (text : jsstring) (g : Globals).


End MainOutcome.



Section CommandLine.
Lemma isFlag_cases f :
  isFlag f = true -> f = "-i"%string \/ f = "-pdf"%string \/ f = "-png"%string.
Proof.
  unfold isFlag. intros H.
  apply orb_prop in H as [H|H]; [apply orb_prop in H as [H|H]|];
    apply String.eqb_eq in H; auto.
Qed.

Lemma lastValue_cons flag f v pairs before :
  lastValue flag ((f, v) :: pairs) before
  = lastValue flag pairs (if (f =? flag)%string then Some v else before).
Proof. reflexivity. Qed.

Lemma parseArgs_pairs pairs : forall params,
  List.Forall (fun fv => isFlag (fst fv) = true /\ truthy (snd fv) = true) pairs ->
  parseArgs (flatten pairs) params
  = mkCliParams (lastValue "-i" pairs (input params))
                (lastValue "-pdf" pairs (pdfArg params))
                (lastValue "-png" pairs (pngArg params)).
Proof.
  induction pairs as [|[f v] pairs IH]; intros params Hall.
  - now destruct params.
  - apply List.Forall_cons_iff in Hall as [[Hf Hv] Hall]. cbn [fst snd] in *.
    rewrite !lastValue_cons.
    change (flatten ((f, v) :: pairs)) with (f :: v :: flatten pairs).
    cbn [parseArgs]. rewrite Hv.
    destruct (isFlag_cases f Hf) as [->|[->| ->]]; cbn [String.eqb Ascii.eqb
      Bool.eqb andb]; now rewrite IH.
Qed.
End CommandLine.

(** X22: on a command line made of pairs of one of the flags [-i], [-pdf],
    [-png] and a non-empty value, each parameter takes the value of the last
    pair with its flag, and stays unset when there is none. *)
Theorem parseArgs_last_wins (pairs : list (string * string)) :
  List.Forall (fun fv => isFlag (fst fv) = true /\ truthy (snd fv) = true) pairs ->
  parseArgs (flatten pairs) (mkCliParams None None None)
  = mkCliParams (lastValue "-i" pairs None)
                (lastValue "-pdf" pairs None)
                (lastValue "-png" pairs None).
Proof. apply parseArgs_pairs. Qed.

Lemma parseArgs_last_wins_example :
  parseArgs ["-i"; "a.txt"; "-png"; "a.png"; "-i"; "b.txt"]%string
            (mkCliParams None None None)
  = mkCliParams (Some "b.txt"%string) None (Some "a.png"%string).
Proof.
  apply (parseArgs_last_wins
           [("-i", "a.txt"); ("-png", "a.png"); ("-i", "b.txt")]%string).
  repeat constructor.
Defined.


(** ** Lines of a text *)

Section Lines.
Implicit Types (s : jsstring).

Lemma splitLines_cons s : exists l ls, splitLines s = l :: ls.
Proof.
  induction s as [|c s (l & ls & IH)]; cbn; [eauto|].
  destruct (c =? 10)%N; [eauto|]. rewrite IH. eauto.
Qed.

Lemma joinLines_cons_cons l l' ls :
  joinLines (l :: l' :: ls) = l ++ 10%N :: joinLines (l' :: ls).
Proof. reflexivity. Qed.

Lemma joinLines_push c l ls : joinLines ((c :: l) :: ls) = c :: joinLines (l :: ls).
Proof. destruct ls; reflexivity. Qed.

Lemma joinLines_splitLines s : joinLines (splitLines s) = s.
Proof.
  induction s as [|c s IH]; [reflexivity|]. cbn [splitLines].
  destruct (N.eqb_spec c 10) as [->|Hc].
  - destruct (splitLines_cons s) as (l & ls & E). rewrite E in *.
    rewrite joinLines_cons_cons. cbn [List.app]. now rewrite IH.
  - destruct (splitLines_cons s) as (l & ls & E). rewrite E in *.
    rewrite joinLines_push. now rewrite IH.
Qed.

Lemma splitLines_no_newline s :
  List.Forall (fun l => ~ In 10%N l) (splitLines s).
Proof.
  induction s as [|c s IH]; [repeat constructor; intros []|].
  cbn [splitLines]. destruct (N.eqb_spec c 10) as [->|Hc].
  - constructor; [intros [] | exact IH].
  - destruct (splitLines s) as [|l ls].
    + repeat constructor. intros [E|[]]. congruence.
    + apply List.Forall_cons_iff in IH as [Hl Hls].
      constructor; [|exact Hls]. intros [E|Hin]; [congruence | now apply Hl].
Qed.

Lemma splitLines_length s :
  length (splitLines s) = S (count_occ N.eq_dec s 10%N).
Proof.
  induction s as [|c s IH]; [reflexivity|]. cbn [splitLines count_occ].
  destruct (N.eq_dec c 10%N) as [->|Hc].
  - cbn. now rewrite IH.
  - apply N.eqb_neq in Hc. rewrite Hc.
    destruct (splitLines_cons s) as (l & ls & E). rewrite E in *. exact IH.
Qed.
End Lines.

(** X24: splitting a text into lines loses nothing: joining the lines
    with line feeds gives the text back, no line contains a line feed, and
    there is one more line than there are line feeds. *)
Theorem splitLines_roundtrip (text : jsstring) :
  joinLines (splitLines text) = text
  /\ List.Forall (fun l => ~ In 10%N l) (splitLines text)
  /\ length (splitLines text) = S (count_occ N.eq_dec text 10%N).
Proof.
  split; [apply joinLines_splitLines|].
  split; [apply splitLines_no_newline | apply splitLines_length].
Qed.

(** ** Numbers printed and parsed *)

Section Numbers.






End Numbers.


